(** * hyper-sam, server side: [src/control/server.mjs]

    A shallow embedding of the two exports of the server control module,

    - [ssrDefaultProps], which builds the props record handed to the root
      component, and
    - [ssrDispatch], which emits the text of an inline event handler,

    together with the properties the specification states about them.

    Part I models JavaScript objects in a store, because the statements
    about [ssrDefaultProps] are about identity, prototypes and the
    single call of [wire].  Part II models the text [ssrDispatch] emits
    and its evaluation by the browser.  Part III models the call of
    [ssrDispatch] itself, on values of a store: the conversions to
    strings it performs, and the code of the program they may run. *)

From Stdlib Require Import ZArith NArith Ascii String List Bool Lia.
From Stdlib Require Import Decimal DecimalString DecimalN DecimalPos DecimalFacts.
From stdpp Require Import base option gmap strings list.

Local Open Scope string_scope.
Local Open Scope list_scope.

Set Warnings "-register-all".

(** * Part I: objects in a store — [ssrDefaultProps] *)

Module Props.

(** ** The store *)

Definition loc := positive.

(** Values as [ssrDefaultProps] meets them: it never inspects [state] or
    [dispatch], and only calls [wire]. *)
Inductive value :=
| VUndefined
| VNull
| VBool (b : bool)
| VNumber (z : Z)
| VString (s : string)
| VObject (l : loc).

#[global] Instance value_eq_dec : EqDecision value.
Proof. solve_decision. Defined.

(** An ordinary object: its [[Prototype]] slot ([None] is [null]), whether
    it can be called, and its own data properties. *)
Record object := Obj {
  proto : option loc;
  callable : bool;
  props : gmap string value;
}.

(** What a failed evaluation throws. *)
Inductive exn :=
| TypeError
| Thrown (v : value).

Inductive completion (A : Type) :=
| Normal (a : A)
| Throw (e : exn).
Arguments Normal {A} a.
Arguments Throw {A} e.

(** One record of the call log: the callee and its arguments. *)
Definition call_record : Type := loc * list value.

Record store := Store {
  heap : gmap loc object;
  calls : list call_record;
}.

(** The location of [Object.prototype], the prototype of every object
    literal. *)
Definition ObjectPrototype : loc := 1%positive.

(** ** Evaluation monad: store passing with abrupt completion *)

Definition M (A : Type) : Type := store -> completion A * store.

#[global] Instance M_ret : MRet M := fun A a s => (Normal a, s).

#[global] Instance M_bind : MBind M := fun A B k m s =>
  match m s with
  | (Normal a, s') => k a s'
  | (Throw e, s') => (Throw e, s')
  end.

Definition throw {A} (e : exn) : M A := fun s => (Throw e, s).

(** ** Primitive operations *)

(** Allocation of an ordinary object at a location not yet in use. *)
Definition alloc (o : object) : M loc :=
  fun s =>
    let l := fresh (dom (heap s)) in
    (Normal l, Store (<[l := o]> (heap s)) (calls s)).

(** [Object.create(null)]: a fresh object without prototype and without
    properties. *)
Definition object_create_null : M value :=
  l ← alloc (Obj None false ∅) ; mret (VObject l).

(** The object an object literal starts from, before its property
    definitions are evaluated. *)
Definition new_literal : M loc :=
  alloc (Obj (Some ObjectPrototype) false ∅).

(** CreateDataProperty on an object of the store. *)
Definition define (l : loc) (k : string) (v : value) : M unit :=
  fun s =>
    match heap s !! l with
    | Some o =>
        (Normal tt,
         Store (<[l := Obj (proto o) (callable o) (<[k := v]> (props o))]> (heap s))
               (calls s))
    | None => (Throw TypeError, s)
    end.

(** [Object.assign(target, source)] for ordinary objects with data
    properties: every own property of [source] is set on [target], which
    is returned. *)
Definition object_assign (target : value) (source : loc) : M value :=
  fun s =>
    match target with
    | VObject t =>
        match heap s !! t, heap s !! source with
        | Some ot, Some os =>
            (Normal target,
             Store (<[t := Obj (proto ot) (callable ot) (props os ∪ props ot)]> (heap s))
                   (calls s))
        | _, _ => (Throw TypeError, s)
        end
    | _ => (Throw TypeError, s)
    end.

Section WithHost.

(** The behaviour of the functions of the host program (the renderer's
    [wire] among them): given the callee, the arguments and the heap, a
    completion and the heap it leaves. *)
Variable host_call : loc -> list value -> gmap loc object -> completion value * gmap loc object.

(** A call expression [f(args)]: a [TypeError] unless [f] is a callable
    object; otherwise the call is logged and the callee runs. *)
Definition call (f : value) (args : list value) : M value :=
  fun s =>
    match f with
    | VObject l =>
        match heap s !! l with
        | Some o =>
            if callable o then
              let '(r, h') := host_call l args (heap s) in
              (r, Store h' (calls s ++ [(l, args)]))
            else (Throw TypeError, s)
        | None => (Throw TypeError, s)
        end
    | _ => (Throw TypeError, s)
    end.

(** ** [ssrDefaultProps] *)

(** The destructured parameter [{ state, dispatch, wire }]. *)
Record params := Params {
  state : value;
  dispatch : value;
  wire : value;
}.

(** <<
    export const ssrDefaultProps = ({ state, dispatch, wire }) => {
        return Object.assign(Object.create(null), {
            state,
            actions: Object.create(null),
            dispatch,
            render: wire(),
            _wire: wire,
        });
    };
    >>
    The arguments of [Object.assign] are evaluated left to right, and the
    property definitions of the literal in the order written. *)
Definition ssrDefaultProps (p : params) : M value :=
  target ← object_create_null;
  source ← new_literal;
  define source "state" (state p);;
  actions ← object_create_null;
  define source "actions" actions;;
  define source "dispatch" (dispatch p);;
  render ← call (wire p) [];
  define source "render" render;;
  define source "_wire" (wire p);;
  object_assign target source.

(** ** Reading the store *)

(** The own property [k] of the object at [l]. *)
Definition own_property (h : gmap loc object) (l : loc) (k : string) : option value :=
  o ← h !! l; props o !! k.

(** [[Get]]: the own property, else the prototype's, along the chain;
    [n] bounds the length of the chain that is followed. *)
Fixpoint get (n : nat) (h : gmap loc object) (l : loc) (k : string) : option value :=
  match h !! l with
  | None => None
  | Some o =>
      match props o !! k with
      | Some v => Some v
      | None =>
          match n, proto o with
          | S n', Some p => get n' h p k
          | _, _ => None
          end
      end
  end.

(** An assignment [o.k = v] through a reference to an existing object. *)
Definition set (h : gmap loc object) (l : loc) (k : string) (v : value) : gmap loc object :=
  match h !! l with
  | Some o => <[l := Obj (proto o) (callable o) (<[k := v]> (props o))]> h
  | None => h
  end.

(** The callee has no reference to the objects created since the heap
    was [h0]: it leaves them as they are, and it frees nothing. *)
Definition host_respects (h0 : gmap loc object) : Prop :=
  forall f args h r h',
    host_call f args h = (r, h') ->
    dom h ⊆ dom h' /\ forall l, l ∈ dom h -> l ∉ dom h0 -> h' !! l = h !! l.

End WithHost.

End Props.

(** * Part II: emitted handler text — [ssrDispatch] *)

Module Dispatch.

(** ** Characters

    A string is a sequence of code units; the model carries the code
    units below 256. *)

Definition code (c : ascii) : N := N_of_ascii c.

Definition LF : ascii := "010"%char.
Definition CR : ascii := "013"%char.
Definition dquote : ascii := "034"%char.
Definition squote : ascii := "'"%char.
Definition backslash : ascii := "\"%char.

Definition is_digit (c : ascii) : bool :=
  (48 <=? code c)%N && (code c <=? 57)%N.

Definition is_letter (c : ascii) : bool :=
  ((65 <=? code c)%N && (code c <=? 90)%N) || ((97 <=? code c)%N && (code c <=? 122)%N).

Definition is_ident_start (c : ascii) : bool :=
  is_letter c || (code c =? 36)%N || (code c =? 95)%N.

Definition is_ident_part (c : ascii) : bool :=
  is_ident_start c || is_digit c.

Definition is_line_terminator (c : ascii) : bool :=
  (code c =? 10)%N || (code c =? 13)%N.

(** TAB, VT, FF, SP and NBSP. *)
Definition is_blank (c : ascii) : bool :=
  (code c =? 9)%N || (code c =? 11)%N || (code c =? 12)%N || (code c =? 32)%N
  || (code c =? 160)%N.

Definition digit_value (c : ascii) : N := (code c - 48)%N.

Definition hex_value (c : ascii) : option N :=
  let n := code c in
  if is_digit c then Some (n - 48)%N
  else if (97 <=? n)%N && (n <=? 102)%N then Some (n - 87)%N
  else if (65 <=? n)%N && (n <=? 70)%N then Some (n - 55)%N
  else None.

Definition snoc (s : string) (c : ascii) : string := s +:+ String c "".

(** ** Server side: the values passed as arguments *)

(** Plain data: primitives, arrays and objects with data properties.
    Numbers are the integers, to be read within the safe range. *)
Inductive data :=
| DUndefined
| DNull
| DBool (b : bool)
| DNumber (z : Z)
| DString (s : string)
| DArray (l : list data)
| DObject (ps : list (string * data)).

(** A function value on the server: the text [Function.prototype.toString]
    returns for it, and the variables its closure captured. *)
Record jsfun := JsFun {
  fn_source : string;
  fn_scope : list (string * data);
}.

(** *** [JSON.stringify] *)

Definition hex_digit (n : N) : ascii :=
  if (n <? 10)%N then ascii_of_N (48 + n) else ascii_of_N (87 + n).

(** QuoteJSONString, one code unit. *)
Definition escape_char (c : ascii) : string :=
  let n := code c in
  if (n =? 8)%N then "\b"
  else if (n =? 9)%N then "\t"
  else if (n =? 10)%N then "\n"
  else if (n =? 12)%N then "\f"
  else if (n =? 13)%N then "\r"
  else if (n =? 34)%N then String backslash (String dquote "")
  else if (n =? 92)%N then "\\"
  else if (n <? 32)%N then "\u00" +:+ String (hex_digit (n / 16)) (String (hex_digit (n mod 16)) "")
  else String c "".

Fixpoint escape (s : string) : string :=
  match s with
  | EmptyString => ""
  | String c r => escape_char c +:+ escape r
  end.

Definition quote (s : string) : string :=
  String dquote (escape s +:+ String dquote "").

(** Number::toString for an integer. *)
Definition number_to_string (z : Z) : string :=
  match z with
  | Zneg p => "-" +:+ NilEmpty.string_of_uint (Pos.to_uint p)
  | _ => NilEmpty.string_of_uint (N.to_uint (Z.to_N z))
  end.

Fixpoint join (l : list string) : string :=
  match l with
  | [] => ""
  | [s] => s
  | s :: r => s +:+ "," +:+ join r
  end.

(** SerializeJSONProperty: [None] is the result [undefined]. *)
Fixpoint serialize (v : data) : option string :=
  match v with
  | DUndefined => None
  | DNull => Some "null"
  | DBool b => Some (if b then "true" else "false")
  | DNumber z => Some (number_to_string z)
  | DString s => Some (quote s)
  | DArray l =>
      Some ("[" +:+ join (map (fun x => default "null" (serialize x)) l) +:+ "]")
  | DObject ps =>
      Some ("{" +:+ join (omap (fun kv => (fun s => quote (fst kv) +:+ ":" +:+ s) <$> serialize (snd kv)) ps)
                +:+ "}")
  end.

(** The text a template literal splices for [JSON.stringify(v)]. *)
Definition JSON_stringify (v : data) : string :=
  default "undefined" (serialize v).

(** *** [ssrDispatch] *)

Definition nl : string := String LF "".

(** <<
    export const ssrDispatch = (_name, _handler, ..._args) => `{
        const name = '${_name}';
        const handler = (${_handler});
        const args = ${JSON.stringify(_args)};
        window.dispatcher.toReplay.push({
            name,
            handler,
            args,
            target: this,
            event,
        });
    }`;
    >> *)
Definition ssrDispatch (_name : string) (_handler : jsfun) (_args : list data) : string :=
  "{" +:+ nl +:+
  "    const name = '" +:+ _name +:+ "';" +:+ nl +:+
  "    const handler = (" +:+ fn_source _handler +:+ ");" +:+ nl +:+
  "    const args = " +:+ JSON_stringify (DArray _args) +:+ ";" +:+ nl +:+
  "    window.dispatcher.toReplay.push({" +:+ nl +:+
  "        name," +:+ nl +:+
  "        handler," +:+ nl +:+
  "        args," +:+ nl +:+
  "        target: this," +:+ nl +:+
  "        event," +:+ nl +:+
  "    });" +:+ nl +:+
  "}".

(** ** Browser side, 1: tokens

    The text of an inline handler is read as ECMAScript source.  The
    model covers a fragment of the language and says so when a text
    leaves it: every reading ends in the tokens, in a syntax error, or
    in [Unsupported], about which nothing is stated. *)

Inductive delim := Paren | Brack | Brace.

Inductive token :=
| TIdent (x : string)
| TString (s : string)
| TNumber (n : N)
| TOpen (d : delim)
| TClose (d : delim)
| TSemi
| TComma
| TColon
| TDot
| TAssign
| TArrow
| TMinus
| TEllipsis.

Definition delim_eqb (a b : delim) : bool :=
  match a, b with
  | Paren, Paren | Brack, Brack | Brace, Brace => true
  | _, _ => false
  end.

(** What the tokenizer is in the middle of. *)
Inductive mode :=
| MStart
| MIdent (x : string)
| MZero
| MNumber (n : N)
| MString (q : ascii) (s : string)
| MEscape (q : ascii) (s : string)
| MEscapeCR (q : ascii) (s : string)
| MNul (q : ascii) (s : string)
| MHex (q : ascii) (s : string) (k : nat) (v : N)
| MDot1
| MDot2
| MAssign
| MMinus.

(** The tokens read so far, the mode, and whether a line terminator
    was passed since the last token. *)
Inductive lexing :=
| Lex (toks : list token) (m : mode) (newline : bool)
| LexError
| LexUnsupported.

Definition max_safe_integer : N := 9007199254740991.

Definition ends_with_return (toks : list token) : bool :=
  match last toks with
  | Some (TIdent x) => String.eqb x "return"
  | _ => false
  end.

(** A token is complete.  [=>] must be on the line of the parameters
    that precede it. *)
Definition emit (toks : list token) (newline : bool) (t : token) : lexing :=
  match t with
  | TArrow => if newline then LexUnsupported else Lex (toks ++ [t]) MStart false
  | TNumber n =>
      if (n <=? max_safe_integer)%N then Lex (toks ++ [t]) MStart false
      else LexUnsupported
  | _ => Lex (toks ++ [t]) MStart false
  end.

Definition punctuator (c : ascii) : option token :=
  let n := code c in
  if (n =? 40)%N then Some (TOpen Paren)
  else if (n =? 41)%N then Some (TClose Paren)
  else if (n =? 91)%N then Some (TOpen Brack)
  else if (n =? 93)%N then Some (TClose Brack)
  else if (n =? 123)%N then Some (TOpen Brace)
  else if (n =? 125)%N then Some (TClose Brace)
  else if (n =? 59)%N then Some TSemi
  else if (n =? 44)%N then Some TComma
  else if (n =? 58)%N then Some TColon
  else None.

(** A character met between tokens.  A line terminator right after
    [return] would end the statement there. *)
Definition start (toks : list token) (newline : bool) (c : ascii) : lexing :=
  if is_line_terminator c then
    if ends_with_return toks then LexUnsupported else Lex toks MStart true
  else if is_blank c then Lex toks MStart newline
  else if is_ident_start c then Lex toks (MIdent (String c "")) newline
  else if (code c =? 48)%N then Lex toks MZero newline
  else if is_digit c then Lex toks (MNumber (digit_value c)) newline
  else if (code c =? 39)%N || (code c =? 34)%N then Lex toks (MString c "") newline
  else if (code c =? 46)%N then Lex toks MDot1 newline
  else if (code c =? 61)%N then Lex toks MAssign newline
  else if (code c =? 45)%N then Lex toks MMinus newline
  else match punctuator c with
       | Some t => emit toks newline t
       | None => LexUnsupported
       end.

Definition then_start (l : lexing) (c : ascii) : lexing :=
  match l with
  | Lex toks MStart newline => start toks newline c
  | _ => l
  end.

(** The token a mode holds back until the next character is seen. *)
Definition flush (toks : list token) (m : mode) (newline : bool) : lexing :=
  match m with
  | MStart => Lex toks MStart newline
  | MIdent x => emit toks newline (TIdent x)
  | MZero => emit toks newline (TNumber 0)
  | MNumber n => emit toks newline (TNumber n)
  | MDot1 => emit toks newline TDot
  | MAssign => emit toks newline TAssign
  | MMinus => emit toks newline TMinus
  | MDot2 => LexUnsupported
  | MString _ _ | MEscape _ _ | MEscapeCR _ _ | MNul _ _ | MHex _ _ _ _ => LexError
  end.

(** A character inside a string literal delimited by [q]. *)
Definition in_string (toks : list token) (newline : bool) (q : ascii) (s : string)
    (c : ascii) : lexing :=
  if Ascii.eqb c q then emit toks newline (TString s)
  else if (code c =? 92)%N then Lex toks (MEscape q s) newline
  else if is_line_terminator c then LexError
  else Lex toks (MString q (snoc s c)) newline.

(** The character after a backslash. *)
Definition escaped (toks : list token) (newline : bool) (q : ascii) (s : string)
    (c : ascii) : lexing :=
  let n := code c in
  let plain (r : N) := Lex toks (MString q (snoc s (ascii_of_N r))) newline in
  if (n =? 10)%N then Lex toks (MString q s) newline
  else if (n =? 13)%N then Lex toks (MEscapeCR q s) newline
  else if (n =? 98)%N then plain 8%N
  else if (n =? 102)%N then plain 12%N
  else if (n =? 110)%N then plain 10%N
  else if (n =? 114)%N then plain 13%N
  else if (n =? 116)%N then plain 9%N
  else if (n =? 118)%N then plain 11%N
  else if (n =? 48)%N then Lex toks (MNul q s) newline
  else if is_digit c then LexUnsupported
  else if (n =? 120)%N then Lex toks (MHex q s 2 0) newline
  else if (n =? 117)%N then Lex toks (MHex q s 4 0) newline
  else Lex toks (MString q (snoc s c)) newline.

Definition step (l : lexing) (c : ascii) : lexing :=
  match l with
  | Lex toks m newline =>
      match m with
      | MStart => start toks newline c
      | MIdent x =>
          if is_ident_part c then Lex toks (MIdent (snoc x c)) newline
          else then_start (flush toks m newline) c
      | MZero =>
          if is_digit c || is_ident_start c || (code c =? 46)%N then LexUnsupported
          else then_start (flush toks m newline) c
      | MNumber n =>
          if is_digit c then Lex toks (MNumber (10 * n + digit_value c)) newline
          else if is_ident_start c || (code c =? 46)%N then LexUnsupported
          else then_start (flush toks m newline) c
      | MString q s => in_string toks newline q s c
      | MEscape q s => escaped toks newline q s c
      | MEscapeCR q s =>
          if (code c =? 10)%N then Lex toks (MString q s) newline
          else in_string toks newline q s c
      | MNul q s =>
          if is_digit c then LexUnsupported
          else in_string toks newline q (snoc s (ascii_of_N 0)) c
      | MHex q s k v =>
          match hex_value c with
          | None => LexUnsupported
          | Some d =>
              let v' := (16 * v + d)%N in
              match k with
              | 1%nat =>
                  if (v' <? 256)%N then Lex toks (MString q (snoc s (ascii_of_N v'))) newline
                  else LexUnsupported
              | S k' => Lex toks (MHex q s k' v') newline
              | O => LexUnsupported
              end
          end
      | MDot1 =>
          if (code c =? 46)%N then Lex toks MDot2 newline
          else if is_digit c then LexUnsupported
          else then_start (flush toks m newline) c
      | MDot2 =>
          if (code c =? 46)%N then emit toks newline TEllipsis else LexUnsupported
      | MAssign =>
          if (code c =? 61)%N then LexUnsupported
          else if (code c =? 62)%N then emit toks newline TArrow
          else then_start (flush toks m newline) c
      | MMinus =>
          if (code c =? 45)%N || (code c =? 61)%N then LexUnsupported
          else then_start (flush toks m newline) c
      end
  | _ => l
  end.

Fixpoint scan (l : lexing) (s : string) : lexing :=
  match s with
  | EmptyString => l
  | String c r => scan (step l c) r
  end.

(** How a reading of a text ends. *)
Inductive reading (A : Type) :=
| Read (a : A)
| Malformed
| Beyond.
Arguments Read {A} a.
Arguments Malformed {A}.
Arguments Beyond {A}.

#[global] Instance reading_ret : MRet reading := fun A a => Read a.
#[global] Instance reading_bind : MBind reading := fun A B k r =>
  match r with
  | Read a => k a
  | Malformed => Malformed
  | Beyond => Beyond
  end.
#[global] Instance reading_fmap : FMap reading := fun A B f r =>
  match r with
  | Read a => Read (f a)
  | Malformed => Malformed
  | Beyond => Beyond
  end.

Definition finish (l : lexing) : reading (list token) :=
  match l with
  | Lex toks m newline =>
      match flush toks m newline with
      | Lex toks' _ _ => Read toks'
      | LexError => Malformed
      | LexUnsupported => Beyond
      end
  | LexError => Malformed
  | LexUnsupported => Beyond
  end.

Definition tokenize (s : string) : reading (list token) :=
  finish (scan (Lex [] MStart false) s).

(** ** Browser side, 2: bracket structure *)

Inductive sep := Comma | Semi.

Definition sep_eqb (a b : sep) : bool :=
  match a, b with
  | Comma, Comma | Semi, Semi => true
  | _, _ => false
  end.

(** A bracketed group holds the segments that end in a separator, and
    the segment after the last separator. *)
Inductive tree :=
| Leaf (t : token)
| Group (d : delim) (items : list (list tree * sep)) (last : list tree).

Record level := Level {
  items_of : list (list tree * sep);
  segment_of : list tree;
}.

Definition add_tree (l : level) (t : tree) : level :=
  Level (items_of l) (segment_of l ++ [t]).

Definition close_segment (l : level) (s : sep) : level :=
  Level (items_of l ++ [(segment_of l, s)]) [].

Fixpoint nest (toks : list token) (stack : list (delim * level)) (cur : level)
    : option level :=
  match toks with
  | [] => match stack with [] => Some cur | _ :: _ => None end
  | t :: r =>
      match t with
      | TOpen d => nest r ((d, cur) :: stack) (Level [] [])
      | TClose d =>
          match stack with
          | (d', up) :: stack' =>
              if delim_eqb d d'
              then nest r stack' (add_tree up (Group d (items_of cur) (segment_of cur)))
              else None
          | [] => None
          end
      | TComma => nest r stack (close_segment cur Comma)
      | TSemi => nest r stack (close_segment cur Semi)
      | _ => nest r stack (add_tree cur (Leaf t))
      end
  end.

(** ** Browser side, 3: syntax *)

Inductive expr :=
| ENull
| EBool (b : bool)
| ENumber (n : N)
| ENegative (n : N)
| EString (s : string)
| EThis
| EIdent (x : string)
| EArray (es : list expr)
| EObject (ps : list (string * option expr))
| EMember (e : expr) (x : string)
| ECall (f : expr) (args : list expr)
| EFunction (name : option string) (params : list string) (rest : option string)
    (body : list stmt)
| EArrowBlock (params : list string) (rest : option string) (body : list stmt)
| EArrowExpr (params : list string) (rest : option string) (body : expr)
with stmt :=
| SConst (x : string) (e : expr)
| SExpr (e : expr)
| SReturn (e : option expr)
| SBlock (body : list stmt).

(** Words that are not read as plain variable names: the reserved words
    and the names whose meaning depends on the context. *)
Definition reserved : list string :=
  [ "break"; "case"; "catch"; "class"; "const"; "continue"; "debugger"; "default";
    "delete"; "do"; "else"; "enum"; "export"; "extends"; "false"; "finally"; "for";
    "function"; "if"; "import"; "in"; "instanceof"; "new"; "null"; "return"; "super";
    "switch"; "this"; "throw"; "true"; "try"; "typeof"; "var"; "void"; "while";
    "with"; "yield"; "let"; "static"; "implements"; "interface"; "package";
    "private"; "protected"; "public"; "await"; "async"; "of"; "get"; "set";
    "arguments"; "eval" ].

Definition mentions (x : string) (l : list string) : bool :=
  existsb (String.eqb x) l.

Definition plain_name (x : string) : bool := negb (mentions x reserved).

Fixpoint distinct (l : list string) : bool :=
  match l with
  | [] => true
  | x :: r => negb (mentions x r) && distinct r
  end.

Definition guard (b : bool) : reading unit := if b then Read tt else Beyond.

(** The names a statement list declares. *)
Definition declared_names (ss : list stmt) : list string :=
  omap (fun s => match s with SConst x _ => Some x | _ => None end) ss.

(** A formal parameter list: names, then possibly a rest parameter. *)
Fixpoint plain_params (items : list (list tree * sep)) : reading (list string) :=
  match items with
  | [] => Read []
  | ([Leaf (TIdent x)], Comma) :: r =>
      guard (plain_name x);; xs ← plain_params r; Read (x :: xs)
  | _ => Beyond
  end.

Definition formal_parameters (items : list (list tree * sep)) (last : list tree)
    : reading (list string * option string) :=
  xs ← plain_params items;
  match last with
  | [] => match items with [] => Read ([], None) | _ => Beyond end
  | [Leaf (TIdent x)] =>
      guard (plain_name x);; guard (distinct (xs ++ [x]));; Read (xs ++ [x], None)
  | [Leaf TEllipsis; Leaf (TIdent x)] =>
      guard (plain_name x);; guard (distinct (xs ++ [x]));; Read (xs, Some x)
  | _ => Beyond
  end.

Definition params_of (t : tree) : reading (list string * option string) :=
  match t with
  | Group Paren items last => formal_parameters items last
  | _ => Beyond
  end.

Definition all_names (ps : list string * option string) : list string :=
  fst ps ++ match snd ps with Some r => [r] | None => [] end.

Definition has_rest (ps : list string * option string) : bool :=
  match snd ps with Some _ => true | None => false end.

(** A body that opens with a string literal statement may switch the
    function to strict mode. *)
Definition starts_with_directive (ss : list stmt) : bool :=
  match ss with
  | SExpr (EString _) :: _ => true
  | _ => false
  end.

Definition is_proto_key (p : string * option expr) : bool :=
  match p with
  | (k, Some _) => String.eqb k "__proto__"
  | _ => false
  end.

Section Segments.

(** The readings of one tree, in the three places a tree can stand. *)
Variable primary : tree -> reading expr.
Variable block : tree -> reading (list stmt).
Variable arguments : tree -> reading (list expr).

(** A function body: a block whose declarations do not clash with the
    parameters. *)
Definition function_body (ps : list string * option string) (t : tree)
    : reading (list stmt) :=
  ss ← block t;
  guard (distinct (all_names ps ++ declared_names ss));;
  guard (negb (has_rest ps && starts_with_directive ss));;
  Read ss.

(** What may follow a primary expression.  [inside] says that the
    segment stands within brackets, where no statement can end. *)
Fixpoint postfix (inside : bool) (e : expr) (seg : list tree) : reading expr :=
  match seg with
  | [] => Read e
  | Leaf TDot :: Leaf (TIdent x) :: r => postfix inside (EMember e x) r
  | Group Paren _ _ as t :: r => args ← arguments t; postfix inside (ECall e args) r
  | Group Brace _ _ :: _ =>
      match e with
      | ECall (EIdent _) _ => if inside then Malformed else Beyond
      | _ => Beyond
      end
  | _ => Beyond
  end.

Fixpoint expression (inside : bool) (seg : list tree) : reading expr :=
  match seg with
  | [] => Beyond
  | [Leaf TMinus; Leaf (TNumber n)] => Read (ENegative n)
  | Leaf (TIdent x) :: Leaf TArrow :: body =>
      guard (plain_name x);;
      match body with
      | [Group Brace _ _ as b] => ss ← function_body ([x], None) b; Read (EArrowBlock [x] None ss)
      | Group Brace _ _ :: _ => Beyond
      | _ => e ← expression inside body; Read (EArrowExpr [x] None e)
      end
  | Group Paren _ _ as ps :: Leaf TArrow :: body =>
      p ← params_of ps;
      match body with
      | [Group Brace _ _ as b] => ss ← function_body p b; Read (EArrowBlock (fst p) (snd p) ss)
      | Group Brace _ _ :: _ => Beyond
      | _ => e ← expression inside body; Read (EArrowExpr (fst p) (snd p) e)
      end
  | (Leaf (TIdent x) as t) :: r =>
      if String.eqb x "function" then
        match r with
        | Leaf (TIdent f) :: (Group Paren _ _ as ps) :: (Group Brace _ _ as b) :: r' =>
            guard (plain_name f);;
            p ← params_of ps; ss ← function_body p b;
            postfix inside (EFunction (Some f) (fst p) (snd p) ss) r'
        | (Group Paren _ _ as ps) :: (Group Brace _ _ as b) :: r' =>
            p ← params_of ps; ss ← function_body p b;
            postfix inside (EFunction None (fst p) (snd p) ss) r'
        | _ => Beyond
        end
      else e ← primary t; postfix inside e r
  | t :: r => e ← primary t; postfix inside e r
  end.

(** The statements of one segment of a block. *)
Fixpoint statements (seg : list tree) : reading (list stmt) :=
  match seg with
  | [] => Read []
  | Group Brace _ _ as b :: r =>
      ss ← block b; more ← statements r; Read (SBlock ss :: more)
  | Leaf (TIdent k) :: r =>
      if String.eqb k "const" then
        match r with
        | Leaf (TIdent x) :: Leaf TAssign :: e =>
            guard (plain_name x);; e' ← expression false e; Read [SConst x e']
        | _ => Beyond
        end
      else if String.eqb k "return" then
        match r with
        | [] => Read [SReturn None]
        | _ => e' ← expression false r; Read [SReturn (Some e')]
        end
      else if String.eqb k "function" then Beyond
      else e ← expression false seg; Read [SExpr e]
  | _ => e ← expression false seg; Read [SExpr e]
  end.

(** One property definition of an object literal. *)
Definition property (seg : list tree) : reading (string * option expr) :=
  match seg with
  | [Leaf (TIdent x)] => guard (plain_name x);; Read (x, None)
  | Leaf (TIdent k) :: Leaf TColon :: e => e' ← expression true e; Read (k, Some e')
  | Leaf (TString k) :: Leaf TColon :: e => e' ← expression true e; Read (k, Some e')
  | _ => Beyond
  end.

End Segments.

(** Segments that end in a separator, each read by [f]. *)
Definition separated {A} (s : sep) (f : list tree -> reading A)
    : list (list tree * sep) -> reading (list A) :=
  fix go items :=
    match items with
    | [] => Read []
    | (seg, s') :: r =>
        guard (sep_eqb s' s);; a ← f seg; more ← go r; Read (a :: more)
    end.

Definition nonempty {A} (f : list tree -> reading A) (seg : list tree) : reading A :=
  match seg with [] => Beyond | _ => f seg end.

Definition optional_last {A} (f : list tree -> reading A) (seg : list tree)
    : reading (list A) :=
  match seg with [] => Read [] | _ => a ← f seg; Read [a] end.

Fixpoint primary (t : tree) : reading expr :=
  match t with
  | Leaf (TIdent x) =>
      if String.eqb x "this" then Read EThis
      else if String.eqb x "null" then Read ENull
      else if String.eqb x "true" then Read (EBool true)
      else if String.eqb x "false" then Read (EBool false)
      else guard (plain_name x);; Read (EIdent x)
  | Leaf (TString s) => Read (EString s)
  | Leaf (TNumber n) => Read (ENumber n)
  | Leaf _ => Beyond
  | Group Paren items last =>
      match items with
      | [] => expression primary block arguments true last
      | _ => Beyond
      end
  | Group Brack items last =>
      es ← separated Comma (nonempty (expression primary block arguments true)) items;
      e ← optional_last (expression primary block arguments true) last;
      Read (EArray (es ++ e))
  | Group Brace items last =>
      ps ← separated Comma (nonempty (property primary block arguments)) items;
      p ← optional_last (property primary block arguments) last;
      guard (Nat.leb (List.length (List.filter is_proto_key (ps ++ p))) 1);;
      Read (EObject (ps ++ p))
  end
with block (t : tree) : reading (list stmt) :=
  match t with
  | Group Brace items last =>
      ss ← separated Semi (statements primary block arguments) items;
      s ← statements primary block arguments last;
      guard (distinct (declared_names (concat ss ++ s)));;
      Read (concat ss ++ s)
  | _ => Beyond
  end
with arguments (t : tree) : reading (list expr) :=
  match t with
  | Group Paren items last =>
      es ← separated Comma (nonempty (expression primary block arguments true)) items;
      e ← optional_last (expression primary block arguments true) last;
      Read (es ++ e)
  | _ => Beyond
  end.

(** The whole text of an inline handler: the body of a function whose
    parameter is [event]. *)
Definition parse (s : string) : reading (list stmt) :=
  toks ← tokenize s;
  match nest toks [] (Level [] []) with
  | Some l =>
      function_body block (["event"], None) (Group Brace (items_of l) (segment_of l))
  | None => Malformed
  end.

(** The text of a function value, read as the expression it is where
    [ssrDispatch] splices it: between parentheses. *)
Definition read_function (src : string) : reading expr :=
  toks ← tokenize src;
  match nest toks [] (Level [] []) with
  | Some (Level [] seg) =>
      e ← primary (Group Paren [] seg);
      match e with
      | EFunction _ _ _ _ | EArrowBlock _ _ _ | EArrowExpr _ _ _ => Read e
      | _ => Beyond
      end
  | Some _ => Beyond
  | None => Malformed
  end.

(** ** Browser side, 4: evaluation *)

Inductive value :=
| VUndefined
| VNull
| VBool (b : bool)
| VNumber (z : Z)
| VString (s : string)
| VArray (vs : list value)
| VObject (proto : option value) (ps : list (string * value))
| VClosure (f : expr)
| VNode (n : N)
| VEvent (n : N)
| VWindow
| VDispatcher
| VQueue.

(** [VObject None ps] is an object whose prototype is [Object.prototype];
    [VObject (Some v) ps] one whose prototype a [__proto__] definition
    set to [v].  The order of [ps] has no meaning. *)

Definition is_object (v : value) : bool :=
  match v with
  | VUndefined | VNull | VBool _ | VNumber _ | VString _ => false
  | _ => true
  end.

Definition is_object_or_null (v : value) : bool :=
  match v with
  | VNull => true
  | _ => is_object v
  end.

Inductive effect :=
| Push (vs : list value)
| Pop.

(** The page: the replay queue at [window.dispatcher.toReplay], if the
    page has installed the dispatcher, and what was done to the queue. *)
Record page := Page {
  toReplay : option (list value);
  log : list effect;
}.

Inductive error := ReferenceError | TypeError.

Inductive result (A : Type) :=
| Val (a : A) (p : page)
| Raised (e : error) (p : page)
| NotModelled.
Arguments Val {A} a p.
Arguments Raised {A} e p.
Arguments NotModelled {A}.

Definition E (A : Type) : Type := page -> result A.

#[global] Instance E_ret : MRet E := fun A a p => Val a p.
#[global] Instance E_bind : MBind E := fun A B k m p =>
  match m p with
  | Val a p' => k a p'
  | Raised e p' => Raised e p'
  | NotModelled => NotModelled
  end.

Definition raise {A} (e : error) : E A := fun p => Raised e p.
Definition not_modelled {A} : E A := fun _ => NotModelled.

(** A scope: the names its statement list declares, and those already
    initialised. *)
Record scope := Scope {
  declared : list string;
  bound : list (string * value);
}.

Record context := Context {
  target : N;
  event : N;
}.

Fixpoint assoc {A} (k : string) (l : list (string * A)) : option A :=
  match l with
  | [] => None
  | (k', a) :: r => if String.eqb k k' then Some a else assoc k r
  end.

(** The value of a variable.  Below the scopes of the handler text are
    its parameter [event] and the global [window]. *)
Fixpoint lookup (c : context) (env : list scope) (x : string) : E value :=
  match env with
  | [] =>
      if String.eqb x "event" then mret (VEvent (event c))
      else if String.eqb x "window" then mret VWindow
      else not_modelled
  | s :: outer =>
      match assoc x (bound s) with
      | Some v => mret v
      | None =>
          if mentions x (declared s) then raise ReferenceError
          else lookup c outer x
      end
  end.

(** CreateDataProperty on the properties of a fresh object. *)
Fixpoint define (k : string) (v : value) (ps : list (string * value))
    : list (string * value) :=
  match ps with
  | [] => [(k, v)]
  | (k', v') :: r => if String.eqb k k' then (k, v) :: r else (k', v') :: define k v r
  end.

Definition get_member (v : value) (x : string) : E value :=
  match v with
  | VUndefined | VNull => raise TypeError
  | VWindow =>
      if String.eqb x "dispatcher" then
        fun p => match toReplay p with
                 | Some _ => Val VDispatcher p
                 | None => Val VUndefined p
                 end
      else not_modelled
  | VDispatcher => if String.eqb x "toReplay" then mret VQueue else not_modelled
  | _ => not_modelled
  end.

(** [Array.prototype.push] and [Array.prototype.pop] on the queue. *)
Definition call_method (v : value) (m : string) (args : list value) : E value :=
  match v with
  | VQueue =>
      fun p =>
        match toReplay p with
        | Some q =>
            if String.eqb m "push" then
              Val (VNumber (Z.of_nat (List.length (q ++ args))))
                  (Page (Some (q ++ args)) (log p ++ [Push args]))
            else if String.eqb m "pop" then
              Val (default VUndefined (last q))
                  (Page (Some (removelast q)) (log p ++ [Pop]))
            else NotModelled
        | None => NotModelled
        end
  | _ => not_modelled
  end.

Definition eval_list (ev : expr -> E value) : list expr -> E (list value) :=
  fix go es :=
    match es with
    | [] => mret []
    | e :: r => v ← ev e; vs ← go r; mret (v :: vs)
    end.

Definition eval_properties (look : string -> E value) (ev : expr -> E value)
    : list (string * option expr) -> option value -> list (string * value) -> E value :=
  fix go ps proto acc :=
    match ps with
    | [] => mret (VObject proto acc)
    | (k, None) :: r => v ← look k; go r proto (define k v acc)
    | (k, Some e) :: r =>
        v ← ev e;
        if String.eqb k "__proto__" then
          if is_object_or_null v then go r (Some v) acc
          else go r proto acc
        else go r proto (define k v acc)
    end.

Definition eval_negative (n : N) : E value :=
  match n with
  | N0 => not_modelled
  | _ => mret (VNumber (- Z.of_N n))
  end.

Section Evaluation.

Variable c : context.

Fixpoint eval (env : list scope) (e : expr) : E value :=
  match e with
  | ENull => mret VNull
  | EBool b => mret (VBool b)
  | ENumber n => mret (VNumber (Z.of_N n))
  | ENegative n => eval_negative n
  | EString s => mret (VString s)
  | EThis => mret (VNode (target c))
  | EIdent x => lookup c env x
  | EArray es => vs ← eval_list (eval env) es; mret (VArray vs)
  | EObject ps => eval_properties (lookup c env) (eval env) ps None []
  | EMember e' x => v ← eval env e'; get_member v x
  | ECall (EMember o m) args =>
      v ← eval env o;
      match v with
      | VUndefined | VNull => raise TypeError
      | VQueue => vs ← eval_list (eval env) args; call_method v m vs
      | _ => not_modelled
      end
  | ECall _ _ => not_modelled
  | EFunction _ _ _ _ | EArrowBlock _ _ _ | EArrowExpr _ _ _ => mret (VClosure e)
  end.

Definition bind_name (x : string) (v : value) (env : list scope) : list scope :=
  match env with
  | [] => []
  | s :: outer => Scope (declared s) ((x, v) :: bound s) :: outer
  end.

(** Statements in sequence; the boolean of the result says that a
    [return] ended the function. *)
Definition exec_sequence (exec_one : list scope -> stmt -> E (list scope * bool))
    : list scope -> list stmt -> E (list scope * bool) :=
  fix go env ss {struct ss} :=
    match ss with
    | [] => mret (env, false)
    | s :: r =>
        x ← exec_one env s;
        if snd (x : list scope * bool) then mret x else go (fst x) r
    end.

Fixpoint exec (env : list scope) (s : stmt) : E (list scope * bool) :=
  match s with
  | SConst x e => v ← eval env e; mret (bind_name x v env, false)
  | SExpr e => eval env e;; mret (env, false)
  | SReturn None => mret (env, true)
  | SReturn (Some e) => eval env e;; mret (env, true)
  | SBlock body =>
      x ← exec_sequence exec (Scope (declared_names body) [] :: env) body;
      mret (env, snd (x : list scope * bool))
  end.

End Evaluation.

(** How the evaluation of a handler text ends. *)
Inductive outcome :=
| Completed (p : page)
| Threw (e : error) (p : page)
| SyntaxError
| Unsupported.

(** The event handler runs: [this] is the node, [event] the event. *)
Definition run (text : string) (c : context) (p : page) : outcome :=
  match parse text with
  | Read ss =>
      match exec_sequence (exec c) [Scope (declared_names ss) []] ss p with
      | Val _ p' => Completed p'
      | Raised e p' => Threw e p'
      | NotModelled => Unsupported
      end
  | Malformed => SyntaxError
  | Beyond => Unsupported
  end.

(** ** Comparing what the browser rebuilt with what the server had *)

Fixpoint inject (d : data) : value :=
  match d with
  | DUndefined => VUndefined
  | DNull => VNull
  | DBool b => VBool b
  | DNumber z => VNumber z
  | DString s => VString s
  | DArray l => VArray (map inject l)
  | DObject ps => VObject None (map (fun kv => (fst kv, inject (snd kv))) ps)
  end.

Definition deep_equal_list (eq : value -> value -> bool) : list value -> list value -> bool :=
  fix go l1 l2 :=
    match l1, l2 with
    | [], [] => true
    | a :: r1, b :: r2 => eq a b && go r1 r2
    | _, _ => false
    end.

(** Deep equality: the same primitive, or objects of the same kind with
    deep-equal prototypes set and the same own properties, whatever
    their order.  Functions are equal by identity only, which the values
    do not carry: no two are reported equal. *)
Fixpoint deep_equal (a b : value) : bool :=
  match a, b with
  | VUndefined, VUndefined => true
  | VNull, VNull => true
  | VBool x, VBool y => Bool.eqb x y
  | VNumber x, VNumber y => Z.eqb x y
  | VString x, VString y => String.eqb x y
  | VArray l1, VArray l2 => deep_equal_list deep_equal l1 l2
  | VObject p1 ps1, VObject p2 ps2 =>
      match p1, p2 with
      | None, None => true
      | Some x, Some y => deep_equal x y
      | _, _ => false
      end
      && forallb (fun kv => match assoc (fst kv) ps2 with
                            | Some v => deep_equal (snd kv) v
                            | None => false
                            end) ps1
      && forallb (fun kv => match assoc (fst kv) ps1 with
                            | Some _ => true
                            | None => false
                            end) ps2
  | VNode n, VNode m => N.eqb n m
  | VEvent n, VEvent m => N.eqb n m
  | VWindow, VWindow => true
  | VDispatcher, VDispatcher => true
  | VQueue, VQueue => true
  | _, _ => false
  end.

End Dispatch.

(** * Part III: the call of [ssrDispatch] on the server

    [ssrDispatch] is a template literal: it converts [_name] and
    [_handler] to strings and calls [JSON.stringify] on the array of the
    remaining arguments.  On objects these conversions look properties
    up and may run code of the program ([toString], [valueOf],
    [Symbol.toPrimitive], [toJSON], getters), and they may throw.  This
    part models the call on values of a store, with what it calls
    logged, and relates it to the text of Part II. *)

Module Server.

Definition loc := positive.

Inductive value :=
| VUndefined
| VNull
| VBool (b : bool)
| VNumber (z : Z)
| VString (s : string)
| VSymbol (id : N)
| VObject (l : loc).

(** Property keys: strings, and the well-known symbol
    [Symbol.toPrimitive]. *)
Inductive key :=
| Str (s : string)
| ToPrimitive.

Definition key_eqb (a b : key) : bool :=
  match a, b with
  | Str x, Str y => String.eqb x y
  | ToPrimitive, ToPrimitive => true
  | _, _ => false
  end.

(** A data property, or an accessor with its getter ([undefined] or a
    function). *)
Inductive property :=
| Data (v : value)
| Accessor (getter : value).

Inductive builtin :=
| FunctionToString
| Native (name : string).

(** What an object is: an ordinary object, an array with its elements, a
    function of the program with its source text, or a built-in
    function. *)
Inductive kind :=
| Ordinary
| Array (elements : list property)
| Function (source : string)
| Builtin (b : builtin).

(** An object: its prototype, its kind, its own enumerable properties
    in property order (for an array, those besides its elements), and
    its own properties that are not enumerable. *)
Record object := Obj {
  proto : option loc;
  kind_of : kind;
  props : list (key * property);
  hidden : list (key * property);
}.

Inductive exn :=
| TypeError
| Thrown (v : value).

(** How an evaluation ends: normally, abruptly, outside what is
    modelled, or cut short by the bound on its depth. *)
Inductive result (A : Type) :=
| Normal (a : A)
| Throw (e : exn)
| Unsupported
| OutOfFuel.
Arguments Normal {A} a.
Arguments Throw {A} e.
Arguments Unsupported {A}.
Arguments OutOfFuel {A}.

(** One record of the call log: the function of the program that was
    called, its [this] and its arguments. *)
Definition call_record : Type := loc * value * list value.

Record store := Store {
  heap : gmap loc object;
  calls : list call_record;
}.

(** The location of [Array.prototype]. *)
Definition ArrayPrototype : loc := 3%positive.

Definition M (A : Type) : Type := store -> result A * store.

#[global] Instance M_ret : MRet M := fun A a s => (Normal a, s).

#[global] Instance M_bind : MBind M := fun A B k m s =>
  match m s with
  | (Normal a, s') => k a s'
  | (Throw e, s') => (Throw e, s')
  | (Unsupported, s') => (Unsupported, s')
  | (OutOfFuel, s') => (OutOfFuel, s')
  end.

Definition throw {A} (e : exn) : M A := fun s => (Throw e, s).
Definition unsupported {A} : M A := fun s => (Unsupported, s).
Definition out_of_fuel {A} : M A := fun s => (OutOfFuel, s).

Definition alloc (o : object) : M loc :=
  fun s =>
    let l := fresh (dom (heap s)) in
    (Normal l, Store (<[l := o]> (heap s)) (calls s)).

Definition object_at (l : loc) : M object :=
  fun s =>
    match heap s !! l with
    | Some o => (Normal o, s)
    | None => (Unsupported, s)
    end.

Fixpoint own (k : key) (ps : list (key * property)) : option property :=
  match ps with
  | [] => None
  | (k', p) :: r => if key_eqb k k' then Some p else own k r
  end.

Definition own_property (k : key) (o : object) : option property :=
  match own k (props o) with
  | Some p => Some p
  | None => own k (hidden o)
  end.

(** The property [k] of the object at [l], own or inherited: [Some None]
    when the prototype chain ends without one, [None] when the chain is
    longer than [c] or leaves the store. *)
Fixpoint find (c : nat) (h : gmap loc object) (l : loc) (k : key)
    : option (option property) :=
  match c with
  | O => None
  | S c' =>
      match h !! l with
      | None => None
      | Some o =>
          match own_property k o with
          | Some p => Some (Some p)
          | None =>
              match proto o with
              | None => Some None
              | Some p => find c' h p k
              end
          end
      end
  end.

(** IsCallable. *)
Definition callable (h : gmap loc object) (v : value) : bool :=
  match v with
  | VObject l =>
      match h !! l with
      | Some o =>
          match kind_of o with
          | Function _ | Builtin _ => true
          | _ => false
          end
      | None => false
      end
  | _ => false
  end.

Definition is_callable (v : value) : M bool :=
  fun s => (Normal (callable (heap s) v), s).

Definition is_object (v : value) : bool :=
  match v with
  | VObject _ => true
  | _ => false
  end.

Fixpoint mentions_loc (l : loc) (stack : list loc) : bool :=
  match stack with
  | [] => false
  | l' :: r => Pos.eqb l l' || mentions_loc l r
  end.

(** The numbers whose decimal text the model writes. *)
Definition safe (z : Z) : bool := (Z.abs_N z <=? Dispatch.max_safe_integer)%N.

Definition index_key (i : nat) : string := Dispatch.number_to_string (Z.of_nat i).

Definition string_keys (ps : list (key * property)) : list string :=
  omap (fun kp => match fst kp with Str k => Some k | ToPrimitive => None end) ps.

Section WithHost.

(** The functions of the program: given the callee, [this], the
    arguments and the heap, how the call ends and the heap it leaves. *)
Variable host_call :
  loc -> value -> list value -> gmap loc object -> result value * gmap loc object.

(** Call(f, this, args).  A call of a function of the program is
    logged.  [Function.prototype.toString] returns the source text of
    such a function. *)
Definition call (f this : value) (args : list value) : M value :=
  fun s =>
    match f with
    | VObject l =>
        match heap s !! l with
        | Some o =>
            match kind_of o with
            | Function _ =>
                let '(r, h') := host_call l this args (heap s) in
                (r, Store h' (calls s ++ [(l, this, args)]))
            | Builtin FunctionToString =>
                match this with
                | VObject t =>
                    match heap s !! t with
                    | Some ot =>
                        match kind_of ot with
                        | Function src => (Normal (VString src), s)
                        | Builtin _ => (Unsupported, s)
                        | _ => (Throw TypeError, s)
                        end
                    | None => (Unsupported, s)
                    end
                | _ => (Throw TypeError, s)
                end
            | Builtin (Native _) => (Unsupported, s)
            | _ => (Throw TypeError, s)
            end
        | None => (Unsupported, s)
        end
    | _ => (Throw TypeError, s)
    end.

(** The value of a property read on [holder]: a getter is called. *)
Definition get_value (holder : value) (p : property) : M value :=
  match p with
  | Data v => mret v
  | Accessor g =>
      f ← is_callable g;
      if (f : bool) then call g holder [] else mret VUndefined
  end.

(** Get(v, k) on an object. *)
Definition get (c : nat) (v : value) (k : key) : M value :=
  fun s =>
    match v with
    | VObject l =>
        match find c (heap s) l k with
        | Some (Some p) => get_value v p s
        | Some None => (Normal VUndefined, s)
        | None => (Unsupported, s)
        end
    | _ => (Unsupported, s)
    end.

(** ** ToString *)

(** One step of OrdinaryToPrimitive: the method [name], if there is one
    to call and it returns a primitive. *)
Definition try_method (c : nat) (o : value) (name : string) : M (option value) :=
  m ← get c o (Str name);
  f ← is_callable m;
  if (f : bool) then
    r ← call m o [];
    mret (if is_object r then None else Some r)
  else mret None.

(** OrdinaryToPrimitive with hint string. *)
Definition ordinary_to_primitive (c : nat) (o : value) : M value :=
  r ← try_method c o "toString";
  match r with
  | Some v => mret v
  | None =>
      r' ← try_method c o "valueOf";
      match r' with
      | Some v => mret v
      | None => throw TypeError
      end
  end.

(** ToPrimitive with hint string. *)
Definition to_primitive (c : nat) (v : value) : M value :=
  match v with
  | VObject _ =>
      exotic ← get c v ToPrimitive;
      match exotic with
      | VUndefined | VNull => ordinary_to_primitive c v
      | _ =>
          f ← is_callable exotic;
          if (f : bool) then
            r ← call exotic v [VString "string"];
            if is_object r then throw TypeError else mret r
          else throw TypeError
      end
  | _ => mret v
  end.

Definition primitive_to_string (v : value) : M string :=
  match v with
  | VUndefined => mret "undefined"
  | VNull => mret "null"
  | VBool b => mret (if b then "true" else "false")
  | VNumber z => if safe z then mret (Dispatch.number_to_string z) else unsupported
  | VString s => mret s
  | VSymbol _ => throw TypeError
  | VObject _ => throw TypeError
  end.

(** ToString, as a template literal applies it to a substitution. *)
Definition to_string (c : nat) (v : value) : M string :=
  p ← to_primitive c v; primitive_to_string p.

(** ** [JSON.stringify] *)

(** The element [i] of the array at [l], as the store has it now. *)
Definition element (l : loc) (i : nat) : M value :=
  o ← object_at l;
  match kind_of o with
  | Array els =>
      match els !! i with
      | Some p => get_value (VObject l) p
      | None => unsupported
      end
  | _ => unsupported
  end.

(** The texts of the elements of the array at [l], each serialized by
    [ser]; an element without text is written [null]. *)
Definition serialize_elements (ser : string -> value -> M (option string)) (l : loc)
    : list nat -> M (list string) :=
  fix go indices :=
    match indices with
    | [] => mret []
    | i :: r =>
        x ← element l i;
        t ← ser (index_key i) x;
        ts ← go r;
        mret (default "null" t :: ts)
    end.

(** The texts of the members of the object at [l], each value read by
    Get and serialized by [ser]; a member without text is left out. *)
Definition serialize_members (c : nat) (ser : string -> value -> M (option string)) (l : loc)
    : list string -> M (list string) :=
  fix go keys :=
    match keys with
    | [] => mret []
    | key :: r =>
        x ← get c (VObject l) (Str key);
        t ← ser key x;
        ms ← go r;
        mret (match t with
              | Some text => (Dispatch.quote key +:+ ":" +:+ text) :: ms
              | None => ms
              end)
    end.

(** SerializeJSONProperty, after the Get of the value: [stack] holds the
    objects being serialized, [k] is the key the value was read at, [n]
    bounds the depth and [c] the length of prototype chains.  [None] is
    the result [undefined]. *)
Fixpoint serialize (c n : nat) (stack : list loc) (k : string) (v : value) {struct n}
    : M (option string) :=
  match n with
  | O => out_of_fuel
  | S n' =>
      v' ← match v with
           | VObject _ =>
               toJSON ← get c v (Str "toJSON");
               f ← is_callable toJSON;
               if (f : bool) then call toJSON v [VString k] else mret v
           | _ => mret v
           end;
      match v' with
      | VNull => mret (Some "null")
      | VBool b => mret (Some (if b then "true" else "false"))
      | VString s => mret (Some (Dispatch.quote s))
      | VNumber z =>
          if safe z then mret (Some (Dispatch.number_to_string z)) else unsupported
      | VUndefined | VSymbol _ => mret None
      | VObject l =>
          o ← object_at l;
          match kind_of o with
          | Function _ | Builtin _ => mret None
          | Array els =>
              if mentions_loc l stack then throw TypeError
              else
                texts ← serialize_elements (serialize c n' (l :: stack)) l
                          (seq 0 (List.length els));
                mret (Some ("[" +:+ Dispatch.join texts +:+ "]"))
          | Ordinary =>
              if mentions_loc l stack then throw TypeError
              else
                members ← serialize_members c (serialize c n' (l :: stack)) l
                            (string_keys (props o));
                mret (Some ("{" +:+ Dispatch.join members +:+ "}"))
          end
      end
  end.

(** [JSON.stringify(v)], spliced into a template literal. *)
Definition JSON_stringify (fuel : nat) (v : value) : M string :=
  t ← serialize fuel fuel [] "" v;
  mret (default "undefined" t).

(** ** [ssrDispatch] *)

(** The template literal of [ssrDispatch], its substitutions converted
    to strings. *)
Definition template (name handler args : string) : string :=
  "{" +:+ Dispatch.nl +:+
  "    const name = '" +:+ name +:+ "';" +:+ Dispatch.nl +:+
  "    const handler = (" +:+ handler +:+ ");" +:+ Dispatch.nl +:+
  "    const args = " +:+ args +:+ ";" +:+ Dispatch.nl +:+
  "    window.dispatcher.toReplay.push({" +:+ Dispatch.nl +:+
  "        name," +:+ Dispatch.nl +:+
  "        handler," +:+ Dispatch.nl +:+
  "        args," +:+ Dispatch.nl +:+
  "        target: this," +:+ Dispatch.nl +:+
  "        event," +:+ Dispatch.nl +:+
  "    });" +:+ Dispatch.nl +:+
  "}".

(** The call [ssrDispatch(_name, _handler, ..._args)]: the rest
    parameter is a new array; the substitutions are evaluated and
    converted from left to right. *)
Definition ssrDispatch (fuel : nat) (_name _handler : value) (_args : list value)
    : M string :=
  rest ← alloc (Obj (Some ArrayPrototype) (Array (map Data _args)) [] []);
  name ← to_string fuel _name;
  handler ← to_string fuel _handler;
  args ← JSON_stringify fuel (VObject rest);
  mret (template name handler args).

End WithHost.

(** ** Plain inputs *)





End Server.

(** * Part IV: what the statements speak of *)

Module PropsSpec.
Import Props.

Definition host := loc -> list value -> gmap loc object -> completion value * gmap loc object.

(** [wire] is a function of the store that returns normally wherever the
    store holds at least what [h0] holds. *)
Definition wire_returns (host_call : host) (p : params) (h0 : gmap loc object) : Prop :=
  exists lw ow,
    wire p = VObject lw /\ h0 !! lw = Some ow /\ callable ow = true /\
    forall h, h0 ⊆ h -> exists r h', host_call lw [] h = (Normal r, h').

(** The properties of the record [ssrDefaultProps] returns. *)
Definition default_props (p : params) (a : loc) (r : value) : gmap string value :=
  <["_wire" := wire p]>
    (<["render" := r]>
       (<["dispatch" := dispatch p]>
          (<["actions" := VObject a]>
             (<["state" := state p]> ∅)))).

(** A host whose functions all return [r] and leave the store alone. *)
Definition host_fixed (r : value) : host := fun _ _ h => (Normal r, h).

(** A host whose functions return themselves. *)
Definition host_self : host := fun l _ h => (Normal (VObject l), h).

Definition sample_heap : gmap loc object :=
  <[5%positive := Obj (Some ObjectPrototype) true ∅]>
    (<[4%positive := Obj (Some ObjectPrototype) true ∅]>
       (<[3%positive := Obj (Some ObjectPrototype) false (<["count" := VNumber 0]> ∅)]>
          (<[2%positive := Obj (Some ObjectPrototype) true ∅]>
             (<[ObjectPrototype := Obj None false (<["toString" := VObject 4%positive]> ∅)]>
                ∅)))).

Definition sample_store : store := Store sample_heap [].

Definition sample_params : params :=
  Params (VObject 3%positive) (VObject 5%positive) (VObject 2%positive).

(** The same input with no [wire]. *)
Definition wireless_params : params :=
  Params (VObject 3%positive) (VObject 5%positive) VUndefined.

(** What the sample [wire] returns. *)
Definition sample_render : value := VObject 4%positive.

(** ** Inputs of the further statements about [ssrDefaultProps] *)

(** Whether a call of [v] finds a function in [h]. *)
Definition callable_in (h : gmap loc object) (v : value) : bool :=
  match v with
  | VObject l =>
      match h !! l with
      | Some o => callable o
      | None => false
      end
  | _ => false
  end.

(** [wire] is a function of the store whose call throws [e] wherever
    the store holds at least what [h0] holds. *)
Definition wire_throws (host_call : host) (p : params) (h0 : gmap loc object) (e : exn) : Prop :=
  exists lw ow,
    wire p = VObject lw /\ h0 !! lw = Some ow /\ callable ow = true /\
    forall h, h0 ⊆ h -> exists h', host_call lw [] h = (Throw e, h').

(** A host whose functions all throw [e]. *)
Definition host_throwing (e : exn) : host := fun _ _ h => (Throw e, h).

(** A host whose functions count their calls in the [count] property of
    the object at [l], and return [r]. *)
Definition host_counting (l : loc) (r : value) : host := fun _ _ h =>
  match own_property h l "count" with
  | Some (VNumber n) => (Normal r, set h l "count" (VNumber (n + 1)))
  | _ => (Normal r, h)
  end.

End PropsSpec.

Module DispatchSpec.
Import Dispatch.

(** ** The inputs the statements range over *)

(** A code unit a single-quoted string literal holds as it stands. *)
Definition safe_char (c : ascii) : bool :=
  negb (Ascii.eqb c squote) && negb (code c =? 92)%N && negb (is_line_terminator c).

Fixpoint safe_name (s : string) : bool :=
  match s with
  | EmptyString => true
  | String c r => safe_char c && safe_name r
  end.

(** No [undefined] anywhere. *)
Fixpoint defined (v : data) : bool :=
  match v with
  | DUndefined => false
  | DArray l => forallb defined l
  | DObject ps => forallb (fun kv => defined (snd kv)) ps
  | _ => true
  end.

(** Integers within the safe range, and objects whose keys are distinct
    (an object has one property of a name). *)
Fixpoint well_formed (v : data) : bool :=
  match v with
  | DNumber z => (Z.abs_N z <=? max_safe_integer)%N
  | DArray l => forallb well_formed l
  | DObject ps => distinct (map fst ps) && forallb (fun kv => well_formed (snd kv)) ps
  | _ => true
  end.

(** No object with an own property named [__proto__]. *)
Fixpoint proto_free (v : data) : bool :=
  match v with
  | DArray l => forallb proto_free l
  | DObject ps =>
      negb (mentions "__proto__" (map fst ps)) && forallb (fun kv => proto_free (snd kv)) ps
  | _ => true
  end.

(** ** What the browser rebuilds *)

Definition defined_here (v : data) : bool :=
  match v with DUndefined => false | _ => true end.

(** What [JSON.stringify] makes of [undefined]: [null] in an array,
    nothing in an object. *)
Fixpoint normalize (v : data) : data :=
  match v with
  | DUndefined => DNull
  | DArray l => DArray (map normalize l)
  | DObject ps =>
      DObject (omap (fun kv => if defined_here (snd kv) then Some (fst kv, normalize (snd kv))
                               else None) ps)
  | _ => v
  end.

(** What the property definitions of an object literal leave: a
    definition [__proto__: v] sets the prototype when [v] is an object
    or [null], and defines nothing either way. *)
Fixpoint revive_properties (ps : list (string * value)) (proto : option value)
    (acc : list (string * value)) : value :=
  match ps with
  | [] => VObject proto acc
  | (k, v) :: r =>
      if String.eqb k "__proto__" then
        if is_object_or_null v then revive_properties r (Some v) acc
        else revive_properties r proto acc
      else revive_properties r proto (define k v acc)
  end.

(** The value the browser builds from the text of a datum. *)
Fixpoint revive (v : data) : value :=
  match v with
  | DUndefined => VUndefined
  | DNull => VNull
  | DBool b => VBool b
  | DNumber z => VNumber z
  | DString s => VString s
  | DArray l => VArray (map revive l)
  | DObject ps => revive_properties (map (fun kv => (fst kv, revive (snd kv))) ps) None []
  end.

(** The entry the emitted handler pushes. *)
Definition replay_entry (name : string) (f : expr) (args : list data) (c : context) : value :=
  VObject None
    [("name", VString name); ("handler", VClosure f);
     ("args", revive (normalize (DArray args)));
     ("target", VNode (target c)); ("event", VEvent (event c))].

(** ** The emitted text, stage by stage *)

(** A scan that started after the tokens [T]. *)
Definition prepend (T : list token) (l : lexing) : lexing :=
  match l with
  | Lex t m b => Lex (T ++ t) m b
  | LexError => LexError
  | LexUnsupported => LexUnsupported
  end.

(** The value of a decimal numeral, digit by digit. *)
Definition digit_of (d : uint) : N :=
  match d with
  | Nil | D0 _ => 0 | D1 _ => 1 | D2 _ => 2 | D3 _ => 3 | D4 _ => 4
  | D5 _ => 5 | D6 _ => 6 | D7 _ => 7 | D8 _ => 8 | D9 _ => 9
  end.

Fixpoint uint_value (a : N) (d : uint) : N :=
  match d with
  | Nil => a
  | D0 r | D1 r | D2 r | D3 r | D4 r | D5 r | D6 r | D7 r | D8 r | D9 r =>
      uint_value (10 * a + digit_of d) r
  end.

(** Segments joined by a separator. *)
Definition commas {A} : list (list A) -> list A -> list A :=
  fix go l sep :=
    match l with
    | [] => []
    | [x] => x
    | x :: r => x ++ sep ++ go r sep
    end.

(** The tokens, the token trees and the expression of the text of a
    datum. *)
Fixpoint json_tokens (v : data) : list token :=
  match v with
  | DUndefined => []
  | DNull => [TIdent "null"]
  | DBool b => [TIdent (if b then "true" else "false")]
  | DNumber (Zneg p) => [TMinus; TNumber (Npos p)]
  | DNumber z => [TNumber (Z.to_N z)]
  | DString s => [TString s]
  | DArray l => TOpen Brack :: commas (map json_tokens l) [TComma] ++ [TClose Brack]
  | DObject ps =>
      TOpen Brace
      :: commas (map (fun kv => TString (fst kv) :: TColon :: json_tokens (snd kv)) ps) [TComma]
      ++ [TClose Brace]
  end.

Definition member_text (kv : string * data) : string :=
  quote (fst kv) +:+ ":" +:+ JSON_stringify (snd kv).

Definition member_tokens (kv : string * data) : list token :=
  TString (fst kv) :: TColon :: json_tokens (snd kv).

(** [text x], followed by a punctuator, scans to [toks x] and that
    punctuator, wherever it stands. *)
Definition scans_to {A} (text : A -> string) (toks : A -> list token) (x : A) : Prop :=
  forall T b c t r, punctuator c = Some t ->
    scan (Lex T MStart b) (text x +:+ String c r) =
    scan (Lex (T ++ toks x ++ [t]) MStart false) r.

(** The items and the last segment of a bracket group whose segments
    are separated by commas. *)
Definition items {A} : list (list A) -> list (list A * sep) :=
  fix go segs :=
    match segs with
    | [] | [_] => []
    | s :: r => (s, Comma) :: go r
    end.

Definition last_segment {A} : list (list A) -> list A :=
  fix go segs :=
    match segs with
    | [] => []
    | [s] => s
    | _ :: r => go r
    end.

Fixpoint json_trees (v : data) : list tree :=
  match v with
  | DUndefined => []
  | DNull => [Leaf (TIdent "null")]
  | DBool b => [Leaf (TIdent (if b then "true" else "false"))]
  | DNumber (Zneg p) => [Leaf TMinus; Leaf (TNumber (Npos p))]
  | DNumber z => [Leaf (TNumber (Z.to_N z))]
  | DString s => [Leaf (TString s)]
  | DArray l =>
      [Group Brack (items (map json_trees l)) (last_segment (map json_trees l))]
  | DObject ps =>
      let segs := map (fun kv => Leaf (TString (fst kv)) :: Leaf TColon :: json_trees (snd kv)) ps in
      [Group Brace (items segs) (last_segment segs)]
  end.

Definition member_trees (kv : string * data) : list tree :=
  Leaf (TString (fst kv)) :: Leaf TColon :: json_trees (snd kv).

Definition add_trees (l : level) (ts : list tree) : level :=
  Level (items_of l) (segment_of l ++ ts).

(** [toks x] nests to [trees x], wherever it stands. *)
Definition nests_to {A} (toks : A -> list token) (trees : A -> list tree) (x : A) : Prop :=
  forall r stack cur,
    nest (toks x ++ r) stack cur = nest r stack (add_trees cur (trees x)).

Fixpoint json_expr (v : data) : expr :=
  match v with
  | DUndefined => EIdent "undefined"
  | DNull => ENull
  | DBool b => EBool b
  | DNumber (Zneg p) => ENegative (Npos p)
  | DNumber z => ENumber (Z.to_N z)
  | DString s => EString s
  | DArray l => EArray (map json_expr l)
  | DObject ps => EObject (map (fun kv => (fst kv, Some (json_expr (snd kv)))) ps)
  end.

Definition member_expr (kv : string * data) : string * option expr :=
  (fst kv, Some (json_expr (snd kv))).

Definition member_value (kv : string * data) : string * value :=
  (fst kv, revive (snd kv)).

Definition keep_defined (kv : string * data) : option (string * data) :=
  if defined_here (snd kv) then Some (fst kv, normalize (snd kv)) else None.

Definition member_string (kv : string * data) : option string :=
  (fun s => quote (fst kv) +:+ ":" +:+ s) <$> serialize (snd kv).

Definition member_image (kv : string * data) : string * value :=
  (fst kv, inject (snd kv)).

(** The fixed parts of the emitted text, and their tokens. *)
Definition text_open : string := "{" +:+ nl +:+ "    const name = '".

Definition text_handler : string := ";" +:+ nl +:+ "    const handler = (".

Definition text_args : string := ";" +:+ nl +:+ "    const args = ".

Definition text_push : string :=
  nl +:+
  "    window.dispatcher.toReplay.push({" +:+ nl +:+
  "        name," +:+ nl +:+
  "        handler," +:+ nl +:+
  "        args," +:+ nl +:+
  "        target: this," +:+ nl +:+
  "        event," +:+ nl +:+
  "    });" +:+ nl +:+
  "}".

Definition tokens_open : list token :=
  [TOpen Brace; TIdent "const"; TIdent "name"; TAssign].

Definition tokens_handler : list token :=
  [TSemi; TIdent "const"; TIdent "handler"; TAssign; TOpen Paren].

Definition tokens_args : list token :=
  [TSemi; TIdent "const"; TIdent "args"; TAssign].

Definition tokens_push : list token :=
  [TIdent "window"; TDot; TIdent "dispatcher"; TDot; TIdent "toReplay"; TDot;
   TIdent "push"; TOpen Paren; TOpen Brace;
   TIdent "name"; TComma; TIdent "handler"; TComma; TIdent "args"; TComma;
   TIdent "target"; TColon; TIdent "this"; TComma; TIdent "event"; TComma;
   TClose Brace; TClose Paren; TSemi; TClose Brace].

(** The tokens, the bracket structure and the syntax of the emitted
    text, given those of the handler and of the arguments. *)
Definition emitted_tokens (name : string) (th : list token) (args : list data) : list token :=
  tokens_open ++ [TString name] ++ tokens_handler ++ th ++ [TClose Paren] ++ tokens_args
  ++ json_tokens (normalize (DArray args)) ++ [TSemi] ++ tokens_push.

Definition is_function (e : expr) : bool :=
  match e with
  | EFunction _ _ _ _ | EArrowBlock _ _ _ | EArrowExpr _ _ _ => true
  | _ => false
  end.

Definition push_segment : list tree :=
  [Leaf (TIdent "window"); Leaf TDot; Leaf (TIdent "dispatcher"); Leaf TDot;
   Leaf (TIdent "toReplay"); Leaf TDot; Leaf (TIdent "push");
   Group Paren []
     [Group Brace
        [([Leaf (TIdent "name")], Comma); ([Leaf (TIdent "handler")], Comma);
         ([Leaf (TIdent "args")], Comma);
         ([Leaf (TIdent "target"); Leaf TColon; Leaf (TIdent "this")], Comma);
         ([Leaf (TIdent "event")], Comma)]
        []]].

Definition emitted_items (name : string) (seg : list tree) (args : list data)
    : list (list tree * sep) :=
  [ ([Leaf (TIdent "const"); Leaf (TIdent "name"); Leaf TAssign; Leaf (TString name)], Semi);
    ([Leaf (TIdent "const"); Leaf (TIdent "handler"); Leaf TAssign; Group Paren [] seg], Semi);
    ([Leaf (TIdent "const"); Leaf (TIdent "args"); Leaf TAssign]
       ++ json_trees (normalize (DArray args)), Semi);
    (push_segment, Semi) ].

Definition push_call : expr :=
  ECall (EMember (EMember (EMember (EIdent "window") "dispatcher") "toReplay") "push")
    [EObject [("name", None); ("handler", None); ("args", None);
              ("target", Some EThis); ("event", None)]].

Definition emitted_program (name : string) (f : expr) (args : list data) : list stmt :=
  [SBlock [SConst "name" (EString name); SConst "handler" f;
           SConst "args" (json_expr (normalize (DArray args))); SExpr push_call]].

(** ** Reading an entry, and the inputs the statements speak of *)

Definition field (k : string) (v : value) : option value :=
  match v with
  | VObject _ ps => assoc k ps
  | _ => None
  end.

(** What [JSON.stringify] writes and [JSON.parse] would read back: no
    [undefined] anywhere, integers in the safe range, distinct keys. *)
Definition json_serializable (v : data) : bool := defined v && well_formed v.

(** *** Sample inputs *)

Definition sample_handler : jsfun :=
  JsFun "(event, action) => { action(step); }" [("step", DNumber 1)].

Definition sample_function : expr :=
  EArrowBlock ["event"; "action"] None [SExpr (ECall (EIdent "action") [EIdent "step"])].

(** The same source text, closed over another binding of [step]. *)
Definition sample_handler' : jsfun :=
  JsFun "(event, action) => { action(step); }" [("step", DNumber 2)].

(** The text [Function.prototype.toString] returns for a method defined
    in shorthand, as in [{ onClick(event, action) { action(); } }]. *)
Definition method_handler : jsfun :=
  JsFun "onClick(event, action) { action(); }" [].

Definition sample_args : list data :=
  [DNumber 1; DString "x"; DObject [("deep", DArray [DBool true; DNull])]].


Definition sample_context : context := Context 7 8.

Definition fresh_page : page := Page (Some []) [].

Definition earlier_entry : value :=
  VObject None
    [("name", VString "earlier"); ("handler", VClosure sample_function);
     ("args", VArray []); ("target", VNode 3); ("event", VEvent 4)].

Definition used_page : page := Page (Some [earlier_entry]) [Push [earlier_entry]].

(** Four code units: [a], a backslash, [n], [b]. *)
Definition escaped_name : string := "a\nb".

(** What the browser reads that name as: [a], a line feed, [b]. *)
Definition escaped_name_read : string := "a" +:+ nl +:+ "b".

Definition injected_name : string := "';window.dispatcher.toReplay.pop();'".

(** ** Events in sequence *)

(** One event on an element whose handler attribute [ssrDispatch]
    wrote. *)
Record firing := Firing {
  fired_name : string;
  fired_handler : jsfun;
  fired_args : list data;
  fired_context : context;
}.

(** The page an event leaves to the next one.  A handler that throws, or
    whose text is not a program, is reported and ends there; the events
    that follow are dispatched all the same. *)
Definition page_after (o : outcome) (p : page) : option page :=
  match o with
  | Completed p' | Threw _ p' => Some p'
  | SyntaxError => Some p
  | Unsupported => None
  end.

Fixpoint fire (fs : list firing) (p : page) : option page :=
  match fs with
  | [] => Some p
  | f :: r =>
      p' ← page_after
             (run (ssrDispatch (fired_name f) (fired_handler f) (fired_args f))
                  (fired_context f) p) p;
      fire r p'
  end.

(** The entry a firing is to leave in the queue. *)
Definition fired_entry (f : firing) : option value :=
  match read_function (fn_source (fired_handler f)) with
  | Read e => Some (replay_entry (fired_name f) e (fired_args f) (fired_context f))
  | _ => None
  end.

Definition well_fired (f : firing) : bool :=
  safe_name (fired_name f)
  && match fired_entry f with Some _ => true | None => false end
  && forallb well_formed (fired_args f).

(** *** Further sample inputs *)

(** A page on which no script has installed [window.dispatcher]. *)
Definition bare_page : page := Page None [].

Definition mixed_args : list data :=
  [DUndefined; DNumber (-3); DObject [("gone", DUndefined); ("kept", DString "it's")]].

Definition sample_firings : list firing :=
  [Firing "inc" sample_handler sample_args sample_context;
   Firing "dec" sample_handler' mixed_args (Context 9 10)].

(** A name that closes the string literal and pushes a value of its
    own. *)
Definition pushing_name : string := "';window.dispatcher.toReplay.push(0);'".

End DispatchSpec.

(** ** Sample stores for the call of [ssrDispatch] *)

Module ServerSpec.
Import Server.

Definition host : Type :=
  loc -> value -> list value -> gmap loc object -> result value * gmap loc object.


Definition handler_text : string := "(event, action) => { action(step); }".

(** The intrinsic objects: [Object.prototype] at 1, [Function.prototype]
    at 2, [Array.prototype] at 3, and the built-in methods they hold. *)
Definition intrinsics : list (loc * object) :=
  [ (1%positive, Obj None Ordinary []
       [(Str "toString", Data (VObject 5%positive)); (Str "valueOf", Data (VObject 6%positive))]);
    (2%positive, Obj (Some 1%positive) (Builtin (Native "Function.prototype")) []
       [(Str "toString", Data (VObject 4%positive))]);
    (3%positive, Obj (Some 1%positive) (Array []) [] []);
    (4%positive, Obj (Some 2%positive) (Builtin FunctionToString) [] []);
    (5%positive, Obj (Some 2%positive) (Builtin (Native "Object.prototype.toString")) [] []);
    (6%positive, Obj (Some 2%positive) (Builtin (Native "Object.prototype.valueOf")) [] []) ].

(** The objects of the program: the handler at 10; the plain object
    [{deep: [true, null]}] at 11; an object with a [toJSON] method at
    20; an object with a getter at 30; an object that holds itself at
    40; an object with a [toString] method of its own at 50; a function
    with a [toString] method of its own at 60. *)
Definition program_objects : list (loc * object) :=
  [ (10%positive, Obj (Some 2%positive) (Function handler_text) [] []);
    (11%positive, Obj (Some 1%positive) Ordinary [(Str "deep", Data (VObject 12%positive))] []);
    (12%positive, Obj (Some 3%positive) (Array [Data (VBool true); Data VNull]) [] []);
    (20%positive, Obj (Some 1%positive) Ordinary
       [(Str "toJSON", Data (VObject 21%positive)); (Str "n", Data (VNumber 1))] []);
    (21%positive, Obj (Some 2%positive) (Function "function () { return 1; }") [] []);
    (30%positive, Obj (Some 1%positive) Ordinary [(Str "now", Accessor (VObject 31%positive))] []);
    (31%positive, Obj (Some 2%positive) (Function "function () { return 1; }") [] []);
    (40%positive, Obj (Some 1%positive) Ordinary [(Str "self", Data (VObject 40%positive))] []);
    (50%positive, Obj (Some 1%positive) Ordinary [(Str "toString", Data (VObject 51%positive))] []);
    (51%positive, Obj (Some 2%positive) (Function "function () { return 1; }") [] []);
    (60%positive, Obj (Some 2%positive) (Function handler_text)
       [(Str "toString", Data (VObject 51%positive))] []) ].

Definition sample_heap : gmap loc object := list_to_map (intrinsics ++ program_objects).

Definition sample_store : store := Store sample_heap [].


Definition sample_handler : value := VObject 10%positive.



End ServerSpec.

(** * Part V: [ssrDefaultProps], proved *)

Module PropsFacts.
Import Props PropsSpec.

Lemma bind_normal {A B} (m : M A) (k : A -> M B) s a s' :
  m s = (Normal a, s') -> (m ≫= k) s = k a s'.
Proof. intros H. unfold mbind, M_bind. rewrite H. reflexivity. Qed.

Lemma define_run s l o k v :
  heap s !! l = Some o ->
  define l k v s =
    (Normal tt, Store (<[l := Obj (proto o) (callable o) (<[k := v]> (props o))]> (heap s)) (calls s)).
Proof. intros H. unfold define. rewrite H. reflexivity. Qed.

Lemma alloc_run o s :
  alloc o s =
    (Normal (fresh (dom (heap s))), Store (<[fresh (dom (heap s)) := o]> (heap s)) (calls s)).
Proof. reflexivity. Qed.

Lemma object_create_null_run s :
  object_create_null s =
    (Normal (VObject (fresh (dom (heap s)))),
     Store (<[fresh (dom (heap s)) := Obj None false ∅]> (heap s)) (calls s)).
Proof. reflexivity. Qed.

Lemma get_null_prototype n (h : gmap loc object) l o k :
  h !! l = Some o -> proto o = None -> get n h l k = props o !! k.
Proof.
  intros Hl Hp. destruct n; cbn [get]; rewrite Hl, ?Hp; destruct (props o !! k); reflexivity.
Qed.

Section WithHost.

Variable host_call : host.

Lemma call_run s lw ow args r h' :
  heap s !! lw = Some ow -> callable ow = true ->
  host_call lw args (heap s) = (Normal r, h') ->
  call host_call (VObject lw) args s = (Normal r, Store h' (calls s ++ [(lw, args)])).
Proof. intros H1 H2 H3. unfold call. rewrite H1, H2, H3. reflexivity. Qed.

(** The run of [ssrDefaultProps], step by step. *)
Lemma ssrDefaultProps_run p s0 :
  wire_returns host_call p (heap s0) ->
  host_respects host_call (heap s0) ->
  exists t a lw r h1 h2 hf,
    ssrDefaultProps host_call p s0 =
      (Normal (VObject t), Store hf (calls s0 ++ [(lw, [])])) /\
    wire p = VObject lw /\
    host_call lw [] h1 = (Normal r, h2) /\
    hf !! t = Some (Obj None false (default_props p a r)) /\
    hf !! a = Some (Obj None false ∅) /\
    (t ∉ dom (heap s0)) /\ (a ∉ dom (heap s0)) /\ t <> a /\
    (dom (heap s0) ⊆ dom hf) /\
    (forall l, l ∈ dom (heap s0) -> hf !! l = h2 !! l).
Proof.
  intros (lw & ow & Hw & Hlw & Hc & Htot) Hresp.
  destruct s0 as [h0 c0]; simpl in *.
  set (t := fresh (dom h0)).
  set (ha := <[t := Obj None false ∅]> h0).
  set (src := fresh (dom ha)).
  set (hb := <[src := Obj (Some ObjectPrototype) false ∅]> ha).
  set (hc := <[src := Obj (Some ObjectPrototype) false (<["state" := state p]> ∅)]> hb).
  set (a := fresh (dom hc)).
  set (hd := <[a := Obj None false ∅]> hc).
  set (he := <[src := Obj (Some ObjectPrototype) false
                 (<["actions" := VObject a]> (<["state" := state p]> ∅))]> hd).
  set (h1 := <[src := Obj (Some ObjectPrototype) false
                 (<["dispatch" := dispatch p]>
                    (<["actions" := VObject a]> (<["state" := state p]> ∅)))]> he).
  assert (Ht : t ∉ dom h0) by apply is_fresh.
  assert (Hsrc : src ∉ dom ha) by apply is_fresh.
  assert (Ha : a ∉ dom hc) by apply is_fresh.
  assert (Hst : src <> t).
  { intros E. apply Hsrc. rewrite E. unfold ha. rewrite dom_insert_L. set_solver. }
  assert (Hat : a <> t).
  { intros E. apply Ha. rewrite E. unfold hc, hb, ha. rewrite !dom_insert_L. set_solver. }
  assert (Has : a <> src).
  { intros E. apply Ha. rewrite E. unfold hc. rewrite !dom_insert_L. set_solver. }
  assert (Hs0 : src ∉ dom h0).
  { intros E. apply Hsrc. unfold ha. rewrite dom_insert_L. set_solver. }
  assert (Ha0 : a ∉ dom h0).
  { intros E. apply Ha. unfold hc, hb, ha. rewrite !dom_insert_L. set_solver. }
  assert (Hold : forall i, i ∈ dom h0 -> h1 !! i = h0 !! i).
  { intros i Hi. unfold h1, he, hd, hc, hb, ha.
    rewrite !lookup_insert_ne by (intros E; subst i; tauto). reflexivity. }
  assert (Hsub : h0 ⊆ h1).
  { apply map_subseteq_spec. intros i x Hi. rewrite Hold; [exact Hi |].
    apply elem_of_dom. eauto. }
  destruct (Htot h1 Hsub) as (r & h2 & Hcall).
  destruct (Hresp _ _ _ _ _ Hcall) as [Hdom Hkeep].
  assert (Hlw1 : h1 !! lw = Some ow) by (eapply map_subseteq_spec; eauto).
  assert (H2src : h2 !! src = h1 !! src).
  { apply Hkeep; [| exact Hs0]. unfold h1. rewrite dom_insert_L. set_solver. }
  assert (H2t : h2 !! t = h1 !! t).
  { apply Hkeep; [| exact Ht].
    unfold h1, he, hd, hc, hb, ha. rewrite !dom_insert_L. set_solver. }
  assert (H2a : h2 !! a = h1 !! a).
  { apply Hkeep; [| exact Ha0]. unfold h1, he, hd. rewrite !dom_insert_L. set_solver. }
  unfold h1 in H2src. rewrite lookup_insert_eq in H2src.
  unfold h1, he, hd, hc, hb in H2t. rewrite !lookup_insert_ne in H2t by congruence.
  unfold ha in H2t. rewrite lookup_insert_eq in H2t.
  unfold h1, he in H2a. rewrite !lookup_insert_ne in H2a by congruence.
  unfold hd in H2a. rewrite lookup_insert_eq in H2a.
  set (h3 := <[src := Obj (Some ObjectPrototype) false
     (<["render" := r]>
        (<["dispatch" := dispatch p]>
           (<["actions" := VObject a]> (<["state" := state p]> ∅))))]> h2).
  set (h4 := <[src := Obj (Some ObjectPrototype) false (default_props p a r)]> h3).
  exists t, a, lw, r, h1, h2.
  eexists.
  split.
  { unfold ssrDefaultProps.
    erewrite bind_normal by apply object_create_null_run. simpl. fold t. fold ha.
    erewrite bind_normal by apply alloc_run. simpl. fold src. fold hb.
    erewrite bind_normal by (apply define_run; simpl; unfold hb; apply lookup_insert_eq).
    simpl. fold hc.
    erewrite bind_normal by apply object_create_null_run. simpl. fold a. fold hd.
    erewrite bind_normal.
    2:{ apply define_run. simpl. unfold hd. rewrite lookup_insert_ne by congruence.
        unfold hc. apply lookup_insert_eq. }
    simpl. fold he.
    erewrite bind_normal by (apply define_run; simpl; unfold he; apply lookup_insert_eq).
    simpl. fold h1.
    rewrite Hw.
    erewrite bind_normal by (eapply call_run; simpl; eauto).
    simpl.
    erewrite bind_normal by (apply define_run; simpl; exact H2src).
    simpl. fold h3.
    erewrite bind_normal by (apply define_run; simpl; unfold h3; apply lookup_insert_eq).
    simpl. rewrite <- Hw. fold (default_props p a r). fold h4.
    unfold object_assign. simpl.
    replace (h4 !! t) with (Some (Obj None false ∅)).
    2:{ unfold h4, h3. rewrite !lookup_insert_ne by congruence. symmetry. exact H2t. }
    unfold h4 at 1. rewrite lookup_insert_eq. simpl.
    rewrite (right_id_L ∅ (∪)). reflexivity. }
  split; [exact Hw |].
  split; [exact Hcall |].
  split; [apply lookup_insert_eq |].
  split.
  { rewrite lookup_insert_ne by congruence. unfold h4, h3.
    rewrite !lookup_insert_ne by congruence. exact H2a. }
  split; [exact Ht |].
  split; [exact Ha0 |].
  split; [congruence |].
  split.
  { rewrite dom_insert_L. unfold h4, h3. rewrite !dom_insert_L.
    assert (dom h0 ⊆ dom h1) by (apply subseteq_dom; exact Hsub).
    set_solver. }
  intros l Hl. unfold h4, h3.
  rewrite !lookup_insert_ne by (intros E; subst l; tauto). reflexivity.
Qed.

(** C2.  For every input record whose [wire] is a function that returns,
    [ssrDefaultProps] returns a record whose [state] is the given state,
    whose [actions] is an object without properties, whose [dispatch] is
    the given dispatch and whose [render] is what the call [wire()]
    returned. *)
Theorem ssrDefaultProps_fields p s0 :
  wire_returns host_call p (heap s0) ->
  host_respects host_call (heap s0) ->
  exists t s1 a oa lw r h1 h2,
    ssrDefaultProps host_call p s0 = (Normal (VObject t), s1) /\
    own_property (heap s1) t "state" = Some (state p) /\
    own_property (heap s1) t "actions" = Some (VObject a) /\
    heap s1 !! a = Some oa /\ props oa = ∅ /\
    own_property (heap s1) t "dispatch" = Some (dispatch p) /\
    wire p = VObject lw /\ host_call lw [] h1 = (Normal r, h2) /\
    own_property (heap s1) t "render" = Some r.
Proof.
  intros Hw Hr.
  destruct (ssrDefaultProps_run p s0 Hw Hr)
    as (t & a & lw & r & h1 & h2 & hf & Hrun & Hlw & Hcall & Ht & Ha & _).
  exists t, (Store hf (calls s0 ++ [(lw, [])])), a, (Obj None false ∅), lw, r, h1, h2.
  unfold own_property. cbn [heap]. rewrite Ht. cbn [props mbind option_bind].
  unfold default_props. repeat split; auto.
Qed.

(** C5.  The [state] field is the very value that was passed: a
    reference to an object that existed before the call is the same
    reference afterwards, the record itself is a new object, and a write
    through the caller's reference is read back through the field. *)
Theorem ssrDefaultProps_shares_state p s0 :
  wire_returns host_call p (heap s0) ->
  host_respects host_call (heap s0) ->
  exists t s1,
    ssrDefaultProps host_call p s0 = (Normal (VObject t), s1) /\
    own_property (heap s1) t "state" = Some (state p) /\
    (t ∉ dom (heap s0)) /\
    forall ls, state p = VObject ls -> ls ∈ dom (heap s0) ->
      ls <> t /\
      forall k v,
        own_property (set (heap s1) ls k v) t "state" = Some (VObject ls) /\
        own_property (set (heap s1) ls k v) ls k = Some v.
Proof.
  intros Hw Hr.
  destruct (ssrDefaultProps_run p s0 Hw Hr)
    as (t & a & lw & r & h1 & h2 & hf & Hrun & Hlw & Hcall & Ht & Ha & Htf & _ & _ & Hdom & _).
  exists t, (Store hf (calls s0 ++ [(lw, [])])). cbn [heap].
  split; [exact Hrun |]. split.
  { unfold own_property. rewrite Ht. reflexivity. }
  split; [exact Htf |].
  intros ls Hs Hls.
  assert (Hne : ls <> t) by (intros ->; exact (Htf Hls)).
  split; [exact Hne |]. intros k v.
  assert (Hin : ls ∈ dom hf) by (apply Hdom, Hls).
  apply elem_of_dom in Hin as [o Ho].
  unfold own_property, set. rewrite Ho.
  rewrite lookup_insert_ne by exact Hne. rewrite Ht, lookup_insert_eq.
  cbn [props mbind option_bind]. unfold default_props.
  rewrite Hs. split; [reflexivity | apply lookup_insert_eq].
Qed.

(** C7, as amended.  The record [ssrDefaultProps] returns holds the
    fields [state], [actions], [dispatch], [render] and [_wire], those
    only, and no [cn] field, own or inherited: reading [cn] finds
    nothing. *)
Theorem ssrDefaultProps_has_no_cn p s0 :
  wire_returns host_call p (heap s0) ->
  host_respects host_call (heap s0) ->
  exists t s1 ot,
    ssrDefaultProps host_call p s0 = (Normal (VObject t), s1) /\
    heap s1 !! t = Some ot /\
    dom (props ot) = {[ "state"; "actions"; "dispatch"; "render"; "_wire" ]} /\
    props ot !! "cn" = None /\
    forall n, get n (heap s1) t "cn" = None.
Proof.
  intros Hw Hr.
  destruct (ssrDefaultProps_run p s0 Hw Hr)
    as (t & a & lw & r & h1 & h2 & hf & Hrun & Hlw & Hcall & Ht & _).
  exists t, (Store hf (calls s0 ++ [(lw, [])])), (Obj None false (default_props p a r)).
  cbn [heap props].
  split; [exact Hrun |]. split; [exact Ht |]. split.
  { unfold default_props. rewrite !dom_insert_L, dom_empty_L. set_solver. }
  split; [reflexivity |]. intros n.
  rewrite (get_null_prototype n hf t _ "cn" Ht) by reflexivity. reflexivity.
Qed.

(** C9.  The record and its [actions] object both have a null
    prototype: reading any property of either finds the own properties
    only, of which [actions] has none and the record exactly [state],
    [actions], [dispatch], [render] and [_wire]. *)
Theorem ssrDefaultProps_null_prototypes p s0 :
  wire_returns host_call p (heap s0) ->
  host_respects host_call (heap s0) ->
  exists t s1 ot a oa,
    ssrDefaultProps host_call p s0 = (Normal (VObject t), s1) /\
    heap s1 !! t = Some ot /\ proto ot = None /\
    dom (props ot) = {[ "state"; "actions"; "dispatch"; "render"; "_wire" ]} /\
    props ot !! "actions" = Some (VObject a) /\
    heap s1 !! a = Some oa /\ proto oa = None /\ props oa = ∅ /\
    (forall n k, get n (heap s1) t k = props ot !! k) /\
    (forall n k, get n (heap s1) a k = None).
Proof.
  intros Hw Hr.
  destruct (ssrDefaultProps_run p s0 Hw Hr)
    as (t & a & lw & r & h1 & h2 & hf & Hrun & Hlw & Hcall & Ht & Ha & _).
  exists t, (Store hf (calls s0 ++ [(lw, [])])), (Obj None false (default_props p a r)),
    a, (Obj None false ∅).
  cbn [heap props proto].
  split; [exact Hrun |]. split; [exact Ht |]. split; [reflexivity |].
  split.
  { unfold default_props. rewrite !dom_insert_L, dom_empty_L. set_solver. }
  split; [reflexivity |]. split; [exact Ha |]. split; [reflexivity |].
  split; [reflexivity |]. split.
  - intros n k. apply (get_null_prototype n hf t _ k Ht). reflexivity.
  - intros n k. rewrite (get_null_prototype n hf a _ k Ha) by reflexivity. reflexivity.
Qed.

(** C10, as amended.  [_wire] is the wire function itself, [render] is
    what its call returned, and that call is the only one
    [ssrDefaultProps] makes; the two fields differ exactly when [wire()]
    returns something other than [wire]. *)
Theorem ssrDefaultProps_calls_wire_once p s0 :
  wire_returns host_call p (heap s0) ->
  host_respects host_call (heap s0) ->
  exists t s1 lw r h1 h2,
    ssrDefaultProps host_call p s0 = (Normal (VObject t), s1) /\
    wire p = VObject lw /\
    calls s1 = calls s0 ++ [(lw, [])] /\
    host_call lw [] h1 = (Normal r, h2) /\
    own_property (heap s1) t "_wire" = Some (wire p) /\
    own_property (heap s1) t "render" = Some r /\
    (own_property (heap s1) t "render" <> own_property (heap s1) t "_wire" <-> r <> wire p).
Proof.
  intros Hw Hr.
  destruct (ssrDefaultProps_run p s0 Hw Hr)
    as (t & a & lw & r & h1 & h2 & hf & Hrun & Hlw & Hcall & Ht & _).
  exists t, (Store hf (calls s0 ++ [(lw, [])])), lw, r, h1, h2.
  unfold own_property. cbn [heap calls]. rewrite Ht. cbn [props mbind option_bind].
  assert (Hw' : default_props p a r !! "_wire" = Some (wire p)) by reflexivity.
  assert (Hr' : default_props p a r !! "render" = Some r) by reflexivity.
  rewrite Hw', Hr'.
  repeat split; auto; intros H E; apply H; congruence.
Qed.

End WithHost.

(** *** The theorems at a sample store *)

Lemma host_fixed_respects r h0 : host_respects (host_fixed r) h0.
Proof. intros f args h out h' H. injection H as _ <-. split; [reflexivity | auto]. Qed.

Lemma host_self_respects h0 : host_respects host_self h0.
Proof. intros f args h out h' H. injection H as _ <-. split; [reflexivity | auto]. Qed.

Lemma sample_wire_returns r : wire_returns (host_fixed r) sample_params sample_heap.
Proof.
  exists 2%positive, (Obj (Some ObjectPrototype) true ∅).
  repeat split; try reflexivity. intros h _. eexists _, _. reflexivity.
Qed.

Lemma sample_wire_returns_itself : wire_returns host_self sample_params sample_heap.
Proof.
  exists 2%positive, (Obj (Some ObjectPrototype) true ∅).
  repeat split; try reflexivity. intros h _. eexists _, _. reflexivity.
Qed.

Lemma ssrDefaultProps_fields_witness :
  exists t s1 a oa lw r h1 h2,
    ssrDefaultProps (host_fixed sample_render) sample_params sample_store
      = (Normal (VObject t), s1) /\
    own_property (heap s1) t "state" = Some (state sample_params) /\
    own_property (heap s1) t "actions" = Some (VObject a) /\
    heap s1 !! a = Some oa /\ props oa = ∅ /\
    own_property (heap s1) t "dispatch" = Some (dispatch sample_params) /\
    wire sample_params = VObject lw /\
    host_fixed sample_render lw [] h1 = (Normal r, h2) /\
    own_property (heap s1) t "render" = Some r.
Proof.
  exact (ssrDefaultProps_fields (host_fixed sample_render) sample_params sample_store
           (sample_wire_returns sample_render) (host_fixed_respects sample_render sample_heap)).
Defined.

Lemma ssrDefaultProps_shares_state_witness :
  exists t s1,
    ssrDefaultProps (host_fixed sample_render) sample_params sample_store
      = (Normal (VObject t), s1) /\
    own_property (heap s1) t "state" = Some (state sample_params) /\
    (t ∉ dom (heap sample_store)) /\
    forall ls, state sample_params = VObject ls -> ls ∈ dom (heap sample_store) ->
      ls <> t /\
      forall k v,
        own_property (set (heap s1) ls k v) t "state" = Some (VObject ls) /\
        own_property (set (heap s1) ls k v) ls k = Some v.
Proof.
  exact (ssrDefaultProps_shares_state (host_fixed sample_render) sample_params sample_store
           (sample_wire_returns sample_render) (host_fixed_respects sample_render sample_heap)).
Defined.

Lemma ssrDefaultProps_has_no_cn_witness :
  exists t s1 ot,
    ssrDefaultProps (host_fixed sample_render) sample_params sample_store
      = (Normal (VObject t), s1) /\
    heap s1 !! t = Some ot /\
    dom (props ot) = {[ "state"; "actions"; "dispatch"; "render"; "_wire" ]} /\
    props ot !! "cn" = None /\
    forall n, get n (heap s1) t "cn" = None.
Proof.
  exact (ssrDefaultProps_has_no_cn (host_fixed sample_render) sample_params sample_store
           (sample_wire_returns sample_render) (host_fixed_respects sample_render sample_heap)).
Defined.

Lemma ssrDefaultProps_null_prototypes_witness :
  exists t s1 ot a oa,
    ssrDefaultProps (host_fixed sample_render) sample_params sample_store
      = (Normal (VObject t), s1) /\
    heap s1 !! t = Some ot /\ proto ot = None /\
    dom (props ot) = {[ "state"; "actions"; "dispatch"; "render"; "_wire" ]} /\
    props ot !! "actions" = Some (VObject a) /\
    heap s1 !! a = Some oa /\ proto oa = None /\ props oa = ∅ /\
    (forall n k, get n (heap s1) t k = props ot !! k) /\
    (forall n k, get n (heap s1) a k = None).
Proof.
  exact (ssrDefaultProps_null_prototypes (host_fixed sample_render) sample_params sample_store
           (sample_wire_returns sample_render) (host_fixed_respects sample_render sample_heap)).
Defined.

Lemma ssrDefaultProps_calls_wire_once_witness :
  exists t s1 lw r h1 h2,
    ssrDefaultProps (host_fixed sample_render) sample_params sample_store
      = (Normal (VObject t), s1) /\
    wire sample_params = VObject lw /\
    calls s1 = calls sample_store ++ [(lw, [])] /\
    host_fixed sample_render lw [] h1 = (Normal r, h2) /\
    own_property (heap s1) t "_wire" = Some (wire sample_params) /\
    own_property (heap s1) t "render" = Some r /\
    (own_property (heap s1) t "render" <> own_property (heap s1) t "_wire"
       <-> r <> wire sample_params).
Proof.
  exact (ssrDefaultProps_calls_wire_once (host_fixed sample_render) sample_params sample_store
           (sample_wire_returns sample_render) (host_fixed_respects sample_render sample_heap)).
Defined.

(** Outside the hypothesis on [wire]: without a function to call,
    [ssrDefaultProps] throws and returns no record. *)
Lemma ssrDefaultProps_needs_wire r :
  exists s1,
    ssrDefaultProps (host_fixed r) wireless_params sample_store = (Throw TypeError, s1) /\
    calls s1 = [].
Proof. eexists. split; vm_compute; reflexivity. Qed.

(** C7, refuted as stated: at the sample store the record has no [cn]. *)
Lemma default_props_lack_cn :
  exists t s1,
    ssrDefaultProps (host_fixed sample_render) sample_params sample_store
      = (Normal (VObject t), s1) /\
    own_property (heap s1) t "cn" = None /\
    ~ (exists v, own_property (heap s1) t "cn" = Some v).
Proof.
  eexists _, _. split; [vm_compute; reflexivity |].
  split; [vm_compute; reflexivity |]. intros [v H]. vm_compute in H. discriminate H.
Qed.

(** C10, refuted as stated: a [wire] that returns itself makes [render]
    and [_wire] the same value. *)
Lemma wire_may_return_itself :
  exists t s1,
    ssrDefaultProps host_self sample_params sample_store = (Normal (VObject t), s1) /\
    own_property (heap s1) t "render" = Some (wire sample_params) /\
    own_property (heap s1) t "render" = own_property (heap s1) t "_wire".
Proof.
  eexists _, _. split; [vm_compute; reflexivity |].
  split; vm_compute; reflexivity.
Qed.

(** ** Further properties of [ssrDefaultProps] *)

Section Further.

Variable host_call : host.

(** The store when [wire] is about to be called: three objects were
    allocated, and nothing that existed before was written to. *)
Lemma ssrDefaultProps_until_call p s0 :
  exists t src a h1,
    ssrDefaultProps host_call p s0 =
      (render ← call host_call (wire p) [];
       define src "render" render;;
       define src "_wire" (wire p);;
       object_assign (VObject t) src) (Store h1 (calls s0)) /\
    (t ∉ dom (heap s0)) /\ (src ∉ dom (heap s0)) /\ (a ∉ dom (heap s0)) /\
    t <> src /\ t <> a /\ src <> a /\
    h1 !! t = Some (Obj None false ∅) /\
    h1 !! src = Some (Obj (Some ObjectPrototype) false
                        (<["dispatch" := dispatch p]>
                           (<["actions" := VObject a]> (<["state" := state p]> ∅)))) /\
    h1 !! a = Some (Obj None false ∅) /\
    dom h1 = dom (heap s0) ∪ {[t; src; a]} /\
    (forall l, l ∈ dom (heap s0) -> h1 !! l = heap s0 !! l).
Proof.
  destruct s0 as [h0 c0]; cbn [heap calls].
  set (t := fresh (dom h0)).
  set (ha := <[t := Obj None false ∅]> h0).
  set (src := fresh (dom ha)).
  set (hb := <[src := Obj (Some ObjectPrototype) false ∅]> ha).
  set (hc := <[src := Obj (Some ObjectPrototype) false (<["state" := state p]> ∅)]> hb).
  set (a := fresh (dom hc)).
  set (hd := <[a := Obj None false ∅]> hc).
  set (he := <[src := Obj (Some ObjectPrototype) false
                 (<["actions" := VObject a]> (<["state" := state p]> ∅))]> hd).
  set (h1 := <[src := Obj (Some ObjectPrototype) false
                 (<["dispatch" := dispatch p]>
                    (<["actions" := VObject a]> (<["state" := state p]> ∅)))]> he).
  assert (Ht : t ∉ dom h0) by apply is_fresh.
  assert (Hsrc : src ∉ dom ha) by apply is_fresh.
  assert (Ha : a ∉ dom hc) by apply is_fresh.
  assert (Hst : t <> src).
  { intros E. apply Hsrc. rewrite <- E. unfold ha. rewrite dom_insert_L. set_solver. }
  assert (Hat : t <> a).
  { intros E. apply Ha. rewrite <- E. unfold hc, hb, ha. rewrite !dom_insert_L. set_solver. }
  assert (Has : src <> a).
  { intros E. apply Ha. rewrite <- E. unfold hc. rewrite !dom_insert_L. set_solver. }
  assert (Hs0 : src ∉ dom h0).
  { intros E. apply Hsrc. unfold ha. rewrite dom_insert_L. set_solver. }
  assert (Ha0 : a ∉ dom h0).
  { intros E. apply Ha. unfold hc, hb, ha. rewrite !dom_insert_L. set_solver. }
  exists t, src, a, h1.
  split.
  { unfold ssrDefaultProps.
    erewrite bind_normal by apply object_create_null_run. cbn [heap calls]. fold t. fold ha.
    erewrite bind_normal by apply alloc_run. cbn [heap calls]. fold src. fold hb.
    erewrite bind_normal by (apply define_run; cbn [heap]; unfold hb; apply lookup_insert_eq).
    cbn [heap calls proto callable props]. fold hc.
    erewrite bind_normal by apply object_create_null_run. cbn [heap calls]. fold a. fold hd.
    erewrite bind_normal.
    2:{ apply define_run. cbn [heap]. unfold hd. rewrite lookup_insert_ne by congruence.
        unfold hc. apply lookup_insert_eq. }
    cbn [heap calls proto callable props]. fold he.
    erewrite bind_normal by (apply define_run; cbn [heap]; unfold he; apply lookup_insert_eq).
    cbn [heap calls proto callable props]. fold h1.
    reflexivity. }
  repeat (split; [assumption |]).
  split.
  { unfold h1, he, hd, hc, hb. rewrite !lookup_insert_ne by congruence.
    unfold ha. apply lookup_insert_eq. }
  split; [unfold h1; apply lookup_insert_eq |].
  split.
  { unfold h1, he. rewrite !lookup_insert_ne by congruence. unfold hd. apply lookup_insert_eq. }
  split.
  { unfold h1, he, hd, hc, hb, ha. rewrite !dom_insert_L. set_solver. }
  intros l Hl. unfold h1, he, hd, hc, hb, ha.
  rewrite !lookup_insert_ne by (intros E; subst l; tauto). reflexivity.
Qed.

(** What follows the call of [wire], on a store where the two objects
    of the call are as they were. *)
Lemma ssrDefaultProps_after_call t src r w ps h cs :
  t <> src ->
  h !! t = Some (Obj None false ∅) ->
  h !! src = Some (Obj (Some ObjectPrototype) false ps) ->
  exists hf,
    (define src "render" r;; define src "_wire" w;; object_assign (VObject t) src) (Store h cs)
      = (Normal (VObject t), Store hf cs) /\
    hf !! t = Some (Obj None false (<["_wire" := w]> (<["render" := r]> ps))) /\
    (forall l, l <> t -> l <> src -> hf !! l = h !! l).
Proof.
  intros Hne Ht Hs.
  set (h3 := <[src := Obj (Some ObjectPrototype) false (<["render" := r]> ps)]> h).
  set (h4 := <[src := Obj (Some ObjectPrototype) false
                        (<["_wire" := w]> (<["render" := r]> ps))]> h3).
  exists (<[t := Obj None false (<["_wire" := w]> (<["render" := r]> ps))]> h4).
  split.
  { erewrite bind_normal by (apply define_run; cbn [heap]; exact Hs).
    cbn [heap calls proto callable props]. fold h3.
    erewrite bind_normal by (apply define_run; cbn [heap]; unfold h3; apply lookup_insert_eq).
    cbn [heap calls proto callable props]. fold h4.
    unfold object_assign. cbn [heap calls].
    replace (h4 !! t) with (Some (Obj None false ∅)).
    2:{ unfold h4, h3. rewrite !lookup_insert_ne by congruence. symmetry. exact Ht. }
    unfold h4 at 1. rewrite lookup_insert_eq. cbn [proto callable props].
    rewrite (right_id_L ∅ (∪)). reflexivity. }
  split; [apply lookup_insert_eq |].
  intros l Hlt Hls. unfold h4, h3. rewrite !lookup_insert_ne by congruence. reflexivity.
Qed.

(** X1.  Where [wire] is not a function, [ssrDefaultProps] throws a
    [TypeError]: it returns no record, calls nothing, and leaves every
    object that existed as it was. *)
Theorem ssrDefaultProps_throws_without_function p s0 :
  callable_in (heap s0) (wire p) = false ->
  exists s1,
    ssrDefaultProps host_call p s0 = (Throw TypeError, s1) /\
    calls s1 = calls s0 /\
    forall l, l ∈ dom (heap s0) -> heap s1 !! l = heap s0 !! l.
Proof.
  intros Hw.
  destruct (ssrDefaultProps_until_call p s0)
    as (t & src & a & h1 & Hrun & Ht & Hs & Ha & _ & _ & _ & H1t & H1s & H1a & Hdom & Hold).
  exists (Store h1 (calls s0)). rewrite Hrun. cbn [heap calls].
  split; [| split; [reflexivity | exact Hold]].
  unfold mbind, M_bind, call. cbn [heap].
  destruct (wire p) as [| | b | z | s | l]; try reflexivity.
  cbn [callable_in] in Hw.
  destruct (h1 !! l) as [o |] eqn:E; [| reflexivity].
  assert (Hl : l ∈ dom h1) by (apply elem_of_dom; eauto).
  rewrite Hdom in Hl. apply elem_of_union in Hl as [Hl | Hl].
  - rewrite (Hold l Hl) in E. rewrite E in Hw. rewrite Hw. reflexivity.
  - assert (Hc : callable o = false).
    { apply elem_of_union in Hl as [Hl | Hl]; [apply elem_of_union in Hl as [Hl | Hl] |];
        apply elem_of_singleton in Hl; subst l;
        match goal with
        | H : h1 !! _ = Some (Obj _ false _) |- _ =>
            rewrite H in E; injection E as <-; reflexivity
        end. }
    rewrite Hc. reflexivity.
Qed.

(** X2.  What the call of [wire] throws, [ssrDefaultProps] throws: it
    returns no record, and [wire] was called once, with no argument. *)
Theorem ssrDefaultProps_propagates_throw p s0 e :
  wire_throws host_call p (heap s0) e ->
  exists lw s1,
    ssrDefaultProps host_call p s0 = (Throw e, s1) /\
    wire p = VObject lw /\
    calls s1 = calls s0 ++ [(lw, [])].
Proof.
  intros (lw & ow & Hw & Hlw & Hc & Hthrow).
  destruct (ssrDefaultProps_until_call p s0)
    as (t & src & a & h1 & Hrun & _ & _ & _ & _ & _ & _ & _ & _ & _ & _ & Hold).
  assert (Hsub : heap s0 ⊆ h1).
  { apply map_subseteq_spec. intros i x Hi. rewrite Hold; [exact Hi |].
    apply elem_of_dom. eauto. }
  destruct (Hthrow h1 Hsub) as [h' Hcall].
  assert (Hlw1 : h1 !! lw = Some ow) by (eapply map_subseteq_spec; eauto).
  exists lw, (Store h' (calls s0 ++ [(lw, [])])).
  split; [| split; [exact Hw | reflexivity]].
  rewrite Hrun, Hw. unfold mbind, M_bind, call. cbn [heap calls].
  rewrite Hlw1, Hc, Hcall. reflexivity.
Qed.

(** X3.  [ssrDefaultProps] writes to no object that existed before the
    call: [wire] is called on a store that holds them as they were, and
    they end as that call left them. *)
Theorem ssrDefaultProps_frame p s0 :
  wire_returns host_call p (heap s0) ->
  host_respects host_call (heap s0) ->
  exists t s1 lw r h1 h2,
    ssrDefaultProps host_call p s0 = (Normal (VObject t), s1) /\
    wire p = VObject lw /\
    host_call lw [] h1 = (Normal r, h2) /\
    (forall l, l ∈ dom (heap s0) -> h1 !! l = heap s0 !! l) /\
    (forall l, l ∈ dom (heap s0) -> heap s1 !! l = h2 !! l).
Proof.
  intros (lw & ow & Hw & Hlw & Hc & Htot) Hresp.
  destruct (ssrDefaultProps_until_call p s0)
    as (t & src & a & h1 & Hrun & Ht & Hs & Ha & Hts & Hta & Hsa & H1t & H1s & H1a & Hdom & Hold).
  assert (Hsub : heap s0 ⊆ h1).
  { apply map_subseteq_spec. intros i x Hi. rewrite Hold; [exact Hi |].
    apply elem_of_dom. eauto. }
  destruct (Htot h1 Hsub) as (r & h2 & Hcall).
  destruct (Hresp _ _ _ _ _ Hcall) as [_ Hkeep].
  assert (Hlw1 : h1 !! lw = Some ow) by (eapply map_subseteq_spec; eauto).
  assert (H2t : h2 !! t = Some (Obj None false ∅)).
  { rewrite Hkeep; [exact H1t | rewrite Hdom; set_solver | exact Ht]. }
  assert (H2s : h2 !! src = h1 !! src).
  { apply Hkeep; [rewrite Hdom; set_solver | exact Hs]. }
  rewrite H1s in H2s.
  destruct (ssrDefaultProps_after_call t src r (wire p) _ h2 (calls s0 ++ [(lw, [])]) Hts H2t H2s)
    as (hf & Hrest & _ & Hother).
  exists t, (Store hf (calls s0 ++ [(lw, [])])), lw, r, h1, h2.
  split.
  { rewrite Hrun. rewrite Hw at 1.
    erewrite bind_normal by (eapply call_run; cbn [heap]; eauto).
    cbn [calls]. exact Hrest. }
  split; [exact Hw |]. split; [exact Hcall |]. split; [exact Hold |].
  intros l Hl. cbn [heap]. apply Hother; intros E; subst l; tauto.
Qed.

(** X4.  Every call makes objects of its own: the record and the
    [actions] mapping of a second call are neither the record nor the
    [actions] mapping of the first. *)
Theorem ssrDefaultProps_fresh_each_call p1 p2 s0 t1 s1 :
  wire_returns host_call p1 (heap s0) ->
  host_respects host_call (heap s0) ->
  ssrDefaultProps host_call p1 s0 = (Normal (VObject t1), s1) ->
  wire_returns host_call p2 (heap s1) ->
  host_respects host_call (heap s1) ->
  exists a1 t2 a2 s2,
    own_property (heap s1) t1 "actions" = Some (VObject a1) /\
    ssrDefaultProps host_call p2 s1 = (Normal (VObject t2), s2) /\
    own_property (heap s2) t2 "actions" = Some (VObject a2) /\
    t2 <> t1 /\ t2 <> a1 /\ a2 <> t1 /\ a2 <> a1.
Proof.
  intros Hw1 Hr1 Hrun1 Hw2 Hr2.
  destruct (ssrDefaultProps_run host_call p1 s0 Hw1 Hr1)
    as (t & a1 & lw1 & r1 & ? & ? & hf1 & Hrun & _ & _ & Ht1 & Ha1 & _).
  rewrite Hrun in Hrun1. injection Hrun1 as -> <-.
  destruct (ssrDefaultProps_run host_call p2 (Store hf1 (calls s0 ++ [(lw1, [])])) Hw2 Hr2)
    as (t2 & a2 & lw2 & r2 & ? & ? & hf2 & Hrun2 & _ & _ & Ht2 & Ha2 & Hnt & Hna & _).
  cbn [heap calls] in *.
  exists a1, t2, a2, (Store hf2 ((calls s0 ++ [(lw1, [])]) ++ [(lw2, [])])).
  assert (Hin1 : t1 ∈ dom hf1) by (apply elem_of_dom; eauto).
  assert (Hin2 : a1 ∈ dom hf1) by (apply elem_of_dom; eauto).
  unfold own_property. cbn [heap]. rewrite Ht1, Ht2. cbn [props mbind option_bind].
  split; [reflexivity |]. split; [exact Hrun2 |]. split; [reflexivity |].
  repeat split; intros E; subst; tauto.
Qed.

End Further.

(** *** The further theorems at sample stores *)

Lemma ssrDefaultProps_throws_without_function_witness :
  exists s1,
    ssrDefaultProps (host_fixed sample_render) wireless_params sample_store
      = (Throw TypeError, s1) /\
    calls s1 = calls sample_store /\
    forall l, l ∈ dom (heap sample_store) -> heap s1 !! l = heap sample_store !! l.
Proof.
  apply (ssrDefaultProps_throws_without_function (host_fixed sample_render)
           wireless_params sample_store).
  reflexivity.
Defined.

Lemma host_fixed_wire_returns r p h lw ow :
  wire p = VObject lw -> h !! lw = Some ow -> callable ow = true ->
  wire_returns (host_fixed r) p h.
Proof.
  intros Hw Hl Hc. exists lw, ow. repeat split; try assumption.
  intros h' _. eexists _, _. reflexivity.
Qed.

Lemma sample_wire_throws e : wire_throws (host_throwing e) sample_params sample_heap e.
Proof.
  exists 2%positive, (Obj (Some ObjectPrototype) true ∅).
  repeat split; try reflexivity. intros h _. eexists. reflexivity.
Qed.

Lemma ssrDefaultProps_propagates_throw_witness :
  exists lw s1,
    ssrDefaultProps (host_throwing (Thrown (VString "down"))) sample_params sample_store
      = (Throw (Thrown (VString "down")), s1) /\
    wire sample_params = VObject lw /\
    calls s1 = calls sample_store ++ [(lw, [])].
Proof.
  exact (ssrDefaultProps_propagates_throw (host_throwing (Thrown (VString "down")))
           sample_params sample_store _ (sample_wire_throws _)).
Defined.

Lemma host_counting_respects l r h0 : l ∈ dom h0 -> host_respects (host_counting l r) h0.
Proof.
  intros Hl f args h out h' H. unfold host_counting in H.
  assert (Hset : forall v, dom h ⊆ dom (set h l "count" v)
                 /\ forall i, i ∈ dom h -> i ∉ dom h0 -> set h l "count" v !! i = h !! i).
  { intros v. unfold set. destruct (h !! l) as [o |] eqn:E; [| auto].
    split; [rewrite dom_insert_L; set_solver |].
    intros i _ Hi. apply lookup_insert_ne. intros ->. tauto. }
  destruct (own_property h l "count") as [[| | | n | |] |];
    injection H as _ <-; auto.
Qed.

Lemma sample_wire_counts :
  wire_returns (host_counting 3%positive sample_render) sample_params sample_heap.
Proof.
  exists 2%positive, (Obj (Some ObjectPrototype) true ∅).
  repeat split; try reflexivity. intros h _. unfold host_counting.
  destruct (own_property h 3%positive "count") as [[| | | n | |] |]; eexists _, _; reflexivity.
Qed.

Lemma ssrDefaultProps_frame_witness :
  exists t s1 lw r h1 h2,
    ssrDefaultProps (host_counting 3%positive sample_render) sample_params sample_store
      = (Normal (VObject t), s1) /\
    wire sample_params = VObject lw /\
    host_counting 3%positive sample_render lw [] h1 = (Normal r, h2) /\
    (forall l, l ∈ dom (heap sample_store) -> h1 !! l = heap sample_store !! l) /\
    (forall l, l ∈ dom (heap sample_store) -> heap s1 !! l = h2 !! l).
Proof.
  apply (ssrDefaultProps_frame (host_counting 3%positive sample_render)
           sample_params sample_store sample_wire_counts).
  apply host_counting_respects. vm_compute. reflexivity.
Defined.

Lemma ssrDefaultProps_fresh_each_call_witness :
  exists t1 s1 a1 t2 a2 s2,
    ssrDefaultProps (host_fixed sample_render) sample_params sample_store
      = (Normal (VObject t1), s1) /\
    own_property (heap s1) t1 "actions" = Some (VObject a1) /\
    ssrDefaultProps (host_fixed sample_render) sample_params s1 = (Normal (VObject t2), s2) /\
    own_property (heap s2) t2 "actions" = Some (VObject a2) /\
    t2 <> t1 /\ t2 <> a1 /\ a2 <> t1 /\ a2 <> a1.
Proof.
  pose (s1 := snd (ssrDefaultProps (host_fixed sample_render) sample_params sample_store)).
  assert (H1 : ssrDefaultProps (host_fixed sample_render) sample_params sample_store
               = (Normal (VObject 6%positive), s1)) by (vm_compute; reflexivity).
  assert (Hw2 : wire_returns (host_fixed sample_render) sample_params (heap s1)).
  { apply (host_fixed_wire_returns sample_render sample_params (heap s1) 2%positive
             (Obj (Some ObjectPrototype) true ∅)); vm_compute; reflexivity. }
  destruct (ssrDefaultProps_fresh_each_call (host_fixed sample_render) sample_params
              sample_params sample_store 6%positive s1
              (sample_wire_returns sample_render)
              (host_fixed_respects sample_render sample_heap) H1 Hw2
              (host_fixed_respects sample_render (heap s1)))
    as (a1 & t2 & a2 & s2 & H).
  exists 6%positive, s1, a1, t2, a2, s2. split; [exact H1 | exact H].
Defined.

End PropsFacts.

(** * Part VI: the emitted text of [ssrDispatch], proved *)

Module DispatchFacts.
Import Dispatch DispatchSpec.

(** ** Scanning *)

Lemma scan_app l a b : scan l (a +:+ b) = scan (scan l a) b.
Proof. revert l. induction a as [| c a IH]; intros l; simpl; [reflexivity | apply IH]. Qed.

Lemma scan_stuck_error s : scan LexError s = LexError.
Proof. induction s; simpl; auto. Qed.

Lemma scan_stuck_unsupported s : scan LexUnsupported s = LexUnsupported.
Proof. induction s; simpl; auto. Qed.

Lemma ends_with_return_app T T' :
  ends_with_return (T ++ T') =
    match T' with [] => ends_with_return T | _ :: _ => ends_with_return T' end.
Proof.
  unfold ends_with_return. rewrite last_app.
  destruct T' as [| t T']; [reflexivity |].
  destruct (last (t :: T')) eqn:E; [reflexivity |].
  apply last_None in E. discriminate.
Qed.

Ltac split_ifs :=
  repeat (cbn iota;
          match goal with
          | |- context [if ?b then _ else _] =>
              lazymatch b with
              | true => fail
              | false => fail
              | _ => destruct b
              end
          | |- context [match ?x with Some _ => _ | None => _ end] =>
              lazymatch x with
              | Some _ => fail
              | None => fail
              | _ => destruct x
              end
          end); cbn iota.

Lemma emit_prepend T T' b t : emit (T ++ T') b t = prepend T (emit T' b t).
Proof. destruct t; simpl; split_ifs; simpl; rewrite ?app_assoc; reflexivity. Qed.

Lemma start_prepend T T' b c :
  ends_with_return T = false ->
  start (T ++ T') b c = prepend T (start T' b c).
Proof.
  intros H. unfold start. rewrite ends_with_return_app.
  destruct T' as [| t T'].
  - rewrite H. change (ends_with_return []) with false. split_ifs; simpl; rewrite ?emit_prepend; reflexivity.
  - split_ifs; simpl; rewrite ?emit_prepend; reflexivity.
Qed.

Lemma then_start_prepend T l c :
  ends_with_return T = false ->
  then_start (prepend T l) c = prepend T (then_start l c).
Proof.
  intros H. destruct l as [t m b | |]; simpl; try reflexivity.
  destruct m; simpl; try reflexivity. apply start_prepend, H.
Qed.

Lemma flush_prepend T T' m b : flush (T ++ T') m b = prepend T (flush T' m b).
Proof. destruct m; cbn [flush prepend]; rewrite ?emit_prepend; reflexivity. Qed.

Lemma in_string_prepend T T' b q s c :
  in_string (T ++ T') b q s c = prepend T (in_string T' b q s c).
Proof. unfold in_string. split_ifs; rewrite ?emit_prepend; reflexivity. Qed.

Lemma escaped_prepend T T' b q s c :
  escaped (T ++ T') b q s c = prepend T (escaped T' b q s c).
Proof. unfold escaped. split_ifs; reflexivity. Qed.

Lemma step_prepend T l c :
  ends_with_return T = false ->
  step (prepend T l) c = prepend T (step l c).
Proof.
  intros H. destruct l as [t m b | |]; [| reflexivity | reflexivity].
  destruct m; cbn [prepend step];
    rewrite ?flush_prepend, ?in_string_prepend, ?escaped_prepend, ?emit_prepend;
    try (apply start_prepend, H);
    split_ifs;
    rewrite ?flush_prepend, ?then_start_prepend, ?in_string_prepend, ?escaped_prepend,
      ?emit_prepend by exact H;
    try reflexivity;
    destruct k as [| [| k]]; reflexivity.
Qed.

Lemma scan_prepend T l s :
  ends_with_return T = false ->
  scan (prepend T l) s = prepend T (scan l s).
Proof.
  intros H. revert l. induction s as [| c s IH]; intros l; simpl; [reflexivity |].
  rewrite step_prepend by exact H. apply IH.
Qed.

(** A text scanned after the tokens [T]. *)
Lemma scan_after T m b s :
  ends_with_return T = false ->
  scan (Lex T m b) s = prepend T (scan (Lex [] m b) s).
Proof.
  intros H. rewrite <- (scan_prepend T (Lex [] m b) s H). simpl. rewrite app_nil_r. reflexivity.
Qed.

Lemma ends_with_return_snoc T t :
  ends_with_return (T ++ [t]) = ends_with_return [t].
Proof. rewrite ends_with_return_app. reflexivity. Qed.

(** ** Characters, case by case *)

Ltac each_char c :=
  destruct c as [[] [] [] [] [] [] [] []].

Lemma punctuator_plain c t :
  punctuator c = Some t ->
  (code c =? 45)%N = false /\ (code c =? 61)%N = false /\ (code c =? 62)%N = false.
Proof.
  each_char c; vm_compute; intros H; try discriminate H; auto.
Qed.

Lemma start_punctuator T b c t :
  punctuator c = Some t ->
  start T b c = Lex (T ++ [t]) MStart false /\ is_ident_part c = false
  /\ is_digit c = false /\ (code c =? 46)%N = false /\ is_ident_start c = false.
Proof.
  each_char c; vm_compute; intros H; try discriminate H; inversion H; auto.
Qed.

Lemma app_nil_s (s : string) : "" +:+ s = s.
Proof. reflexivity. Qed.

Lemma app_cons_s c (a b : string) : String c a +:+ b = String c (a +:+ b).
Proof. reflexivity. Qed.

Lemma app_empty_r (s : string) : s +:+ "" = s.
Proof. induction s as [| c s IH]; [reflexivity |]. rewrite app_cons_s, IH. reflexivity. Qed.

Lemma app_assoc_string (a b c : string) : (a +:+ b) +:+ c = a +:+ (b +:+ c).
Proof. induction a as [| x a IH]; [reflexivity |]. rewrite !app_cons_s, IH. reflexivity. Qed.

Lemma snoc_app acc c r : snoc acc c +:+ r = acc +:+ String c r.
Proof. unfold snoc. rewrite app_assoc_string. reflexivity. Qed.

(** ** String literals *)

Lemma scan_single_quoted T b acc name rest :
  safe_name name = true ->
  scan (Lex T (MString squote acc) b) (name +:+ String squote rest) =
  scan (Lex (T ++ [TString (acc +:+ name)]) MStart false) rest.
Proof.
  revert acc. induction name as [| c name IH]; intros acc H.
  - rewrite app_nil_s, app_empty_r. reflexivity.
  - simpl in H. apply andb_prop in H as [Hc Hn].
    unfold safe_char in Hc. apply andb_prop in Hc as [Hc H3]. apply andb_prop in Hc as [H1 H2].
    apply negb_true_iff in H1, H2, H3.
    rewrite app_cons_s. cbn [scan step]. unfold in_string. rewrite H1, H2, H3.
    rewrite IH by exact Hn. rewrite snoc_app. reflexivity.
Qed.

Lemma scan_escape_char T b acc c r :
  scan (Lex T (MString dquote acc) b) (escape_char c +:+ r) =
  scan (Lex T (MString dquote (snoc acc c)) b) r.
Proof. each_char c; reflexivity. Qed.

Lemma scan_escape T b acc s r :
  scan (Lex T (MString dquote acc) b) (escape s +:+ r) =
  scan (Lex T (MString dquote (acc +:+ s)) b) r.
Proof.
  revert acc. induction s as [| c s IH]; intros acc; cbn [escape].
  - rewrite app_nil_s, app_empty_r. reflexivity.
  - rewrite app_assoc_string, scan_escape_char, IH, snoc_app. reflexivity.
Qed.

Lemma scan_quote T b s r :
  scan (Lex T MStart b) (quote s +:+ r) = scan (Lex (T ++ [TString s]) MStart false) r.
Proof.
  unfold quote. rewrite app_cons_s. cbn [scan].
  change (step (Lex T MStart b) dquote) with (Lex T (MString dquote "") b).
  rewrite app_assoc_string, scan_escape, app_nil_s. reflexivity.
Qed.

(** ** Numerals *)

Lemma scan_digits T b a d r :
  scan (Lex T (MNumber a) b) (NilEmpty.string_of_uint d +:+ r) =
  scan (Lex T (MNumber (uint_value a d)) b) r.
Proof.
  revert a. induction d; intros a; cbn [NilEmpty.string_of_uint uint_value];
    [reflexivity | ..]; rewrite app_cons_s; cbn [scan]; rewrite <- IHd; reflexivity.
Qed.

Lemma uint_value_spec a d :
  uint_value a d = (Unsigned.of_lu (Decimal.rev d) + a * 10 ^ Unsigned.usize d)%N.
Proof.
  revert a. unfold Decimal.rev.
  induction d; intros a; cbn [uint_value Unsigned.usize revapp];
    [ simpl; lia | ..];
    rewrite IHd, (Unsigned.of_lu_revapp d (_ Nil)), N.pow_succ_r';
    cbn [Unsigned.of_lu digit_of]; unfold Decimal.rev; ring.
Qed.

Lemma uint_value_to_uint (n : N) : uint_value 0 (N.to_uint n) = n.
Proof.
  rewrite uint_value_spec, N.mul_0_l, N.add_0_r.
  rewrite <- Unsigned.of_uint_alt.
  exact (DecimalN.Unsigned.of_to n).
Qed.

Lemma data_induction (P : data -> Prop) :
  P DUndefined -> P DNull -> (forall b, P (DBool b)) -> (forall z, P (DNumber z)) ->
  (forall s, P (DString s)) ->
  (forall l, Forall P l -> P (DArray l)) ->
  (forall ps, Forall (fun kv => P (snd kv)) ps -> P (DObject ps)) ->
  forall v, P v.
Proof.
  intros Hu Hn Hb Hz Hs Ha Ho. fix IH 1.
  intros [| | b | z | s | l | ps];
    [exact Hu | exact Hn | apply Hb | apply Hz | apply Hs | |].
  - apply Ha. induction l as [| x l IHl]; constructor; [apply IH | exact IHl].
  - apply Ho. induction ps as [| [k x] ps IHps]; constructor; [apply IH | exact IHps].
Qed.

(** ** Numerals, from the start of a token *)

Lemma to_uint_head p : forall d, Pos.to_uint p <> D0 d.
Proof.
  intros d E.
  assert (U : unorm (Pos.to_uint p) = Pos.to_uint p).
  { rewrite <- (DecimalPos.Unsigned.to_of (Pos.to_uint p)).
    rewrite DecimalPos.Unsigned.of_to. reflexivity. }
  rewrite E in U. rewrite unorm_D0 in U. unfold unorm in U.
  destruct (nzhead d) eqn:N; try (rewrite <- N in U; exact (nzhead_nonzero _ _ U)).
  apply (DecimalPos.Unsigned.to_uint_nonzero p). rewrite E.
  injection U as <-. reflexivity.
Qed.

Lemma scan_positive L T b p r :
  (forall c, is_digit c = true -> step L c = start T b c) ->
  scan L (NilEmpty.string_of_uint (Pos.to_uint p) +:+ r) =
  scan (Lex T (MNumber (Npos p)) b) r.
Proof.
  intros HL.
  pose proof (uint_value_to_uint (Npos p)) as V. cbn [N.to_uint] in V.
  pose proof (to_uint_head p) as H0.
  pose proof (DecimalPos.Unsigned.to_uint_nonnil p) as Hn.
  destruct (Pos.to_uint p) as [| d | d | d | d | d | d | d | d | d | d];
    [ congruence | exfalso; eapply H0; reflexivity | ..];
    cbn [NilEmpty.string_of_uint]; rewrite app_cons_s; cbn [scan];
    cbn [uint_value digit_of] in V; rewrite <- V;
    rewrite <- scan_digits, HL by reflexivity; reflexivity.
Qed.

Lemma step_minus_digit T b c :
  is_digit c = true -> step (Lex T MMinus b) c = start (T ++ [TMinus]) false c.
Proof. each_char c; intros H; try discriminate H; reflexivity. Qed.

Lemma step_number_punctuator T b n c t :
  punctuator c = Some t -> (n <=? max_safe_integer)%N = true ->
  step (Lex T (MNumber n) b) c = Lex (T ++ [TNumber n; t]) MStart false.
Proof.
  intros Hc Hn. destruct (start_punctuator (T ++ [TNumber n]) false c t Hc) as (E & _ & Hd & H46 & Hi).
  cbn [step]. rewrite Hd, Hi, H46. cbn [orb flush emit]. rewrite Hn. cbn [then_start].
  rewrite E, <- app_assoc. reflexivity.
Qed.

Lemma step_ident_punctuator T b x c t :
  punctuator c = Some t ->
  step (Lex T (MIdent x) b) c = Lex (T ++ [TIdent x; t]) MStart false.
Proof.
  intros Hc. destruct (start_punctuator (T ++ [TIdent x]) false c t Hc) as (E & Hp & _).
  cbn [step]. rewrite Hp. cbn [flush emit then_start]. rewrite E, <- app_assoc. reflexivity.
Qed.

Lemma scan_number T b z c t r :
  (Z.abs_N z <=? max_safe_integer)%N = true -> punctuator c = Some t ->
  scan (Lex T MStart b) (number_to_string z +:+ String c r) =
  scan (Lex (T ++ json_tokens (DNumber z) ++ [t]) MStart false) r.
Proof.
  intros Hz Hc. destruct z as [| p | p]; cbn [number_to_string json_tokens Z.to_N N.to_uint].
  - cbn [NilEmpty.string_of_uint]. rewrite !app_cons_s, app_nil_s. cbn [scan].
    change (step (Lex T MStart b) "0") with (Lex T MZero b).
    destruct (start_punctuator (T ++ [TNumber 0]) false c t Hc) as (E & _ & Hd & H46 & Hi).
    cbn [step]. rewrite Hd, Hi, H46. cbn [orb flush emit].
    change (0 <=? max_safe_integer)%N with true. cbn [then_start].
    rewrite E, <- app_assoc. reflexivity.
  - rewrite (scan_positive _ T b) by reflexivity. cbn [scan].
    rewrite (step_number_punctuator _ _ _ c t) by assumption. reflexivity.
  - rewrite app_assoc_string, app_cons_s, app_nil_s. cbn [scan].
    change (step (Lex T MStart b) "-") with (Lex T MMinus b).
    rewrite (scan_positive _ (T ++ [TMinus]) false) by apply step_minus_digit. cbn [scan].
    rewrite (step_number_punctuator _ _ _ c t) by assumption.
    rewrite <- !app_assoc. reflexivity.
Qed.

(** ** The text of [JSON.stringify], token by token *)

Lemma serialize_defined v :
  defined v = true -> serialize v = Some (JSON_stringify v).
Proof. destruct v; intros H; try discriminate H; reflexivity. Qed.

Lemma element_texts l :
  forallb defined l = true ->
  map (fun x => default "null" (serialize x)) l = map JSON_stringify l.
Proof.
  induction l as [| x l IH]; intros H; [reflexivity |].
  cbn [forallb] in H. apply andb_prop in H as [Hx Hl].
  cbn [map]. rewrite IH by exact Hl. rewrite (serialize_defined x Hx). reflexivity.
Qed.

Lemma member_texts (ps : list (string * data)) :
  forallb (fun kv => defined (snd kv)) ps = true ->
  omap (fun kv => (fun s => quote (fst kv) +:+ ":" +:+ s) <$> serialize (snd kv)) ps =
  map member_text ps.
Proof.
  induction ps as [| kv ps IH]; intros H; [reflexivity |].
  cbn [forallb] in H. apply andb_prop in H as [Hx Hl].
  cbn [omap list_omap map]. rewrite (serialize_defined _ Hx). cbn [fmap option_fmap option_map].
  fold (omap (fun kv => (fun s => quote (fst kv) +:+ ":" +:+ s) <$> serialize (snd kv)) ps).
  rewrite IH by exact Hl. reflexivity.
Qed.

Lemma scan_punctuator T b c t r :
  punctuator c = Some t ->
  scan (Lex T MStart b) (String c r) = scan (Lex (T ++ [t]) MStart false) r.
Proof.
  intros Hc. destruct (start_punctuator T b c t Hc) as (E & _).
  cbn [scan step]. rewrite E. reflexivity.
Qed.

Lemma scan_joined {A} (text : A -> string) (toks : A -> list token) (l : list A) :
  Forall (scans_to text toks) l ->
  forall T b c t r, punctuator c = Some t ->
    scan (Lex T MStart b) (join (map text l) +:+ String c r) =
    scan (Lex (T ++ commas (map toks l) [TComma] ++ [t]) MStart false) r.
Proof.
  induction 1 as [| x l Hx Hl IH]; intros T b c t r Hc.
  - cbn [map join commas]. rewrite app_nil_s. apply scan_punctuator, Hc.
  - destruct l as [| y l].
    + cbn [map join commas]. apply Hx, Hc.
    + change (join (map text (x :: y :: l)))
        with (text x +:+ "," +:+ join (map text (y :: l))).
      change (commas (map toks (x :: y :: l)) [TComma])
        with (toks x ++ [TComma] ++ commas (map toks (y :: l)) [TComma]).
      rewrite !app_assoc_string, app_cons_s, app_nil_s.
      rewrite (Hx T b _ TComma) by reflexivity.
      rewrite (IH _ false c t r Hc). rewrite <- !app_assoc. reflexivity.
Qed.

Lemma scan_json v :
  defined v = true -> well_formed v = true -> scans_to JSON_stringify json_tokens v.
Proof.
  induction v as [| | b | z | s | l IH | ps IH] using data_induction;
    intros Hd Hw T b' c t r Hc; try discriminate Hd.
  - change (JSON_stringify DNull) with "null".
    rewrite !app_cons_s, app_nil_s. cbn [scan].
    change (step (step (step (step (Lex T MStart b') "n") "u") "l") "l")
      with (Lex T (MIdent "null") b').
    rewrite (step_ident_punctuator _ _ _ c t Hc). reflexivity.
  - destruct b.
    + change (JSON_stringify (DBool true)) with "true".
      rewrite !app_cons_s, app_nil_s. cbn [scan].
      change (step (step (step (step (Lex T MStart b') "t") "r") "u") "e")
        with (Lex T (MIdent "true") b').
      rewrite (step_ident_punctuator _ _ _ c t Hc). reflexivity.
    + change (JSON_stringify (DBool false)) with "false".
      rewrite !app_cons_s, app_nil_s. cbn [scan].
      change (step (step (step (step (step (Lex T MStart b') "f") "a") "l") "s") "e")
        with (Lex T (MIdent "false") b').
      rewrite (step_ident_punctuator _ _ _ c t Hc). reflexivity.
  - apply scan_number; assumption.
  - change (JSON_stringify (DString s)) with (quote s).
    rewrite scan_quote, (scan_punctuator _ _ c t r Hc), <- app_assoc. reflexivity.
  - cbn [defined] in Hd. cbn [well_formed] in Hw.
    unfold JSON_stringify. cbn [serialize default from_option id].
    rewrite element_texts by exact Hd.
    rewrite !app_assoc_string, !app_cons_s, !app_nil_s. cbn [scan].
    change (step (Lex T MStart b') "[") with (Lex (T ++ [TOpen Brack]) MStart false).
    rewrite (scan_joined JSON_stringify json_tokens l) with (t := TClose Brack);
      [| | reflexivity].
    + rewrite (scan_punctuator _ _ c t r Hc). cbn [json_tokens].
      repeat (rewrite <- app_assoc || rewrite <- app_comm_cons). reflexivity.
    + clear - IH Hd Hw. induction IH as [| x l Hx _ IHl]; constructor.
      * cbn [forallb] in Hd, Hw. apply andb_prop in Hd as [? ?], Hw as [? ?]. auto.
      * cbn [forallb] in Hd, Hw. apply andb_prop in Hd as [? ?], Hw as [? ?]. auto.
  - cbn [defined] in Hd. cbn [well_formed] in Hw. apply andb_prop in Hw as [_ Hw].
    unfold JSON_stringify. cbn [serialize default from_option id].
    rewrite member_texts by exact Hd.
    rewrite !app_assoc_string, !app_cons_s, !app_nil_s. cbn [scan].
    change (step (Lex T MStart b') "{") with (Lex (T ++ [TOpen Brace]) MStart false).
    rewrite (scan_joined member_text member_tokens ps) with (t := TClose Brace);
      [| | reflexivity].
    + rewrite (scan_punctuator _ _ c t r Hc). cbn [json_tokens].
      repeat (rewrite <- app_assoc || rewrite <- app_comm_cons). reflexivity.
    + clear - IH Hd Hw. induction IH as [| [k x] ps Hx _ IHl]; constructor.
      * cbn [forallb snd] in Hd, Hw. apply andb_prop in Hd as [Hd1 ?], Hw as [Hw1 ?].
        intros T b c t r Hc. unfold member_text, member_tokens. cbn [fst snd] in *.
        rewrite !app_assoc_string, scan_quote, app_cons_s, app_nil_s.
        rewrite (scan_punctuator _ _ ":" TColon) by reflexivity.
        rewrite (Hx Hd1 Hw1 _ _ c t r Hc).
        repeat (rewrite <- app_assoc || rewrite <- app_comm_cons). reflexivity.
      * cbn [forallb] in Hd, Hw. apply andb_prop in Hd as [? ?], Hw as [? ?]. auto.
Qed.

(** ** Bracket structure of the text of a datum *)

Lemma nest_joined {A} (toks : A -> list token) (trees : A -> list tree) (l : list A) :
  Forall (nests_to toks trees) l ->
  forall r stack its,
    nest (commas (map toks l) [TComma] ++ r) stack (Level its []) =
    nest r stack (Level (its ++ items (map trees l)) (last_segment (map trees l))).
Proof.
  induction 1 as [| x l Hx Hl IH]; intros r stack its.
  - cbn [map commas items last_segment app]. rewrite app_nil_r. reflexivity.
  - destruct l as [| y l].
    + cbn [map commas items last_segment]. rewrite Hx. unfold add_trees. cbn.
      rewrite app_nil_r. reflexivity.
    + change (commas (map toks (x :: y :: l)) [TComma])
        with (toks x ++ [TComma] ++ commas (map toks (y :: l)) [TComma]).
      rewrite <- !app_assoc. rewrite Hx. cbn [app nest].
      unfold add_trees, close_segment. cbn [items_of segment_of app].
      rewrite IH. cbn [map items last_segment]. rewrite <- app_assoc. reflexivity.
Qed.

Lemma nest_json v : defined v = true -> nests_to json_tokens json_trees v.
Proof.
  induction v as [| | b | z | s | l IH | ps IH] using data_induction;
    intros Hd r stack cur; try discriminate Hd.
  - reflexivity.
  - reflexivity.
  - destruct z; try reflexivity.
    cbn [json_tokens json_trees app nest]. unfold add_tree, add_trees.
    cbn [items_of segment_of]. rewrite <- app_assoc. reflexivity.
  - reflexivity.
  - cbn [defined] in Hd. cbn [json_tokens json_trees].
    rewrite <- app_comm_cons, <- app_assoc. cbn [nest].
    rewrite (nest_joined json_tokens json_trees).
    + cbn [app nest delim_eqb]. reflexivity.
    + clear - IH Hd. induction IH as [| x l Hx _ IHl]; constructor;
        cbn [forallb] in Hd; apply andb_prop in Hd as [? ?]; auto.
  - cbn [defined] in Hd. cbn [json_tokens json_trees].
    rewrite <- app_comm_cons, <- app_assoc. cbn [nest].
    rewrite (nest_joined (fun kv => TString (fst kv) :: TColon :: json_tokens (snd kv))
               (fun kv => Leaf (TString (fst kv)) :: Leaf TColon :: json_trees (snd kv))).
    + cbn [app nest delim_eqb]. reflexivity.
    + clear - IH Hd. induction IH as [| [k x] l Hx _ IHl]; constructor;
        cbn [forallb snd] in Hd; apply andb_prop in Hd as [? ?]; auto.
      intros r stack cur. cbn [fst snd]. rewrite <- !app_comm_cons. cbn [nest].
      rewrite Hx by assumption. unfold add_trees, add_tree. cbn [items_of segment_of].
      rewrite <- !app_assoc. reflexivity.
Qed.

(** ** Syntax of the text of a datum *)

Lemma reading_bind_assoc {A B C} (m : reading A) (f : A -> reading B) (g : B -> reading C) :
  (m ≫= f) ≫= g = m ≫= (fun x => f x ≫= g).
Proof. destruct m; reflexivity. Qed.

Lemma parse_joined {A B} (f : list tree -> reading B) (trees : A -> list tree)
    (e : A -> B) (l : list A) :
  Forall (fun x => trees x <> [] /\ f (trees x) = Read (e x)) l ->
  forall X (k : list B -> reading X),
    (es ← separated Comma (nonempty f) (items (map trees l));
     x ← optional_last f (last_segment (map trees l));
     k (es ++ x)) = k (map e l).
Proof.
  induction 1 as [| x l [Hne Hx] Hl IH]; intros X k.
  - reflexivity.
  - destruct l as [| y l].
    + cbn [map items last_segment separated].
      change (mbind ?g (Read ?a)) with (g a). cbn beta.
      unfold optional_last. destruct (trees x) as [| t ts] eqn:E; [congruence |].
      rewrite Hx. reflexivity.
    + change (items (map trees (x :: y :: l)))
        with ((trees x, Comma) :: items (map trees (y :: l))).
      change (last_segment (map trees (x :: y :: l)))
        with (last_segment (map trees (y :: l))).
      cbn [separated sep_eqb guard]. change (mbind ?g (Read ?a)) with (g a). cbn beta.
      destruct (trees x) as [| t ts] eqn:E; [congruence |].
      change (nonempty f (t :: ts)) with (f (t :: ts)).
      rewrite Hx. change (mbind ?g (Read ?a)) with (g a). cbn beta.
      rewrite reading_bind_assoc.
      change (fun es => Read (e x :: es) ≫= ?g) with (fun es => g (e x :: es)).
      exact (IH X (fun l => k (e x :: l))).
Qed.

Abbreviation expression' := (expression primary block arguments true).
Abbreviation property' := (property primary block arguments).

Lemma json_trees_nonempty v : defined v = true -> json_trees v <> [].
Proof. destruct v as [| | | [| |] | | |]; intros H; try discriminate H; discriminate. Qed.

Lemma mentions_cons x y l : mentions x (y :: l) = String.eqb x y || mentions x l.
Proof. reflexivity. Qed.

Lemma no_proto_keys (ps : list (string * data)) :
  mentions "__proto__" (map fst ps) = false ->
  List.filter is_proto_key (map member_expr ps) = [].
Proof.
  induction ps as [| [k v] ps IH]; intros H; [reflexivity |].
  cbn [map fst] in H. rewrite mentions_cons in H. apply orb_false_elim in H as [Hk Hr].
  cbn [map List.filter member_expr is_proto_key fst snd].
  rewrite String.eqb_sym, Hk. apply IH, Hr.
Qed.

Lemma one_proto_key (ps : list (string * data)) :
  distinct (map fst ps) = true ->
  Nat.leb (List.length (List.filter is_proto_key (map member_expr ps))) 1 = true.
Proof.
  induction ps as [| [k v] ps IH]; intros H; [reflexivity |].
  cbn [map fst distinct] in H. apply andb_prop in H as [Hk Hr].
  cbn [map List.filter member_expr is_proto_key fst snd].
  destruct (String.eqb k "__proto__") eqn:E.
  - apply String.eqb_eq in E. subst k. apply negb_true_iff in Hk.
    rewrite no_proto_keys by exact Hk. reflexivity.
  - apply IH, Hr.
Qed.

Lemma primary_brack i l :
  primary (Group Brack i l) =
    (es ← separated Comma (nonempty expression') i;
     e ← optional_last expression' l;
     Read (EArray (es ++ e))).
Proof. reflexivity. Qed.

Lemma primary_brace i l :
  primary (Group Brace i l) =
    (ps ← separated Comma (nonempty property') i;
     p ← optional_last property' l;
     guard (Nat.leb (List.length (List.filter is_proto_key (ps ++ p))) 1);;
     Read (EObject (ps ++ p))).
Proof. reflexivity. Qed.

Lemma expression_group d i l :
  d <> Paren ->
  expression' [Group d i l] = (e ← primary (Group d i l); Read e).
Proof. destruct d; intros H; [congruence | reflexivity | reflexivity]. Qed.

Lemma property_member k e :
  property' (Leaf (TString k) :: Leaf TColon :: e) =
    (e' ← expression' e; Read (k, Some e')).
Proof. reflexivity. Qed.

Lemma parse_json v :
  defined v = true -> well_formed v = true ->
  expression' (json_trees v) = Read (json_expr v).
Proof.
  induction v as [| | b | z | s | l IH | ps IH] using data_induction;
    intros Hd Hw; try discriminate Hd.
  - reflexivity.
  - destruct b; reflexivity.
  - destruct z; reflexivity.
  - reflexivity.
  - cbn [defined] in Hd. cbn [well_formed] in Hw. cbn [json_trees json_expr].
    rewrite expression_group, primary_brack by discriminate.
    assert (F : Forall (fun x => json_trees x <> [] /\
                          expression' (json_trees x) = Read (json_expr x)) l).
    { clear - IH Hd Hw. induction IH as [| x l Hx _ IHl]; constructor;
        cbn [forallb] in Hd, Hw; apply andb_prop in Hd as [? ?], Hw as [? ?]; auto.
      split; [apply json_trees_nonempty; assumption | auto]. }
    rewrite (parse_joined expression' json_trees json_expr l F _
               (fun es => Read (EArray es))).
    reflexivity.
  - cbn [defined] in Hd. cbn [well_formed] in Hw. apply andb_prop in Hw as [Hk Hw].
    cbn [json_trees json_expr].
    rewrite expression_group, primary_brace by discriminate.
    change (map (fun kv => Leaf (TString (fst kv)) :: Leaf TColon :: json_trees (snd kv)) ps)
      with (map member_trees ps).
    assert (F : Forall (fun x => member_trees x <> [] /\
                          property' (member_trees x) = Read (member_expr x)) ps).
    { clear - IH Hd Hw. induction IH as [| [k x] l Hx _ IHl]; constructor;
        cbn [forallb snd] in Hd, Hw; apply andb_prop in Hd as [? ?], Hw as [? ?]; auto.
      split; [discriminate |].
      unfold member_trees, member_expr. cbn [fst snd] in *.
      rewrite property_member, Hx by assumption. reflexivity. }
    rewrite (parse_joined property' member_trees member_expr ps F _
               (fun l => guard (Nat.leb (List.length (List.filter is_proto_key l)) 1);;
                         Read (EObject l))).
    change (map (fun kv => (fst kv, Some (json_expr (snd kv)))) ps)
      with (map member_expr ps).
    rewrite one_proto_key by exact Hk. reflexivity.
Qed.

(** ** Value of the text of a datum *)

Lemma E_bind_val {A B} (m : E A) (k : A -> E B) p a p' :
  m p = Val a p' -> (m ≫= k) p = k a p'.
Proof. intros H. unfold mbind, E_bind. rewrite H. reflexivity. Qed.

Lemma eval_list_map {A} (ev : expr -> E value) (e : A -> expr) (r : A -> value) (l : list A) :
  Forall (fun x => forall p, ev (e x) p = Val (r x) p) l ->
  forall p, eval_list ev (map e l) p = Val (map r l) p.
Proof.
  induction 1 as [| x l Hx _ IH]; intros p; [reflexivity |].
  cbn [map eval_list].
  rewrite (E_bind_val _ _ _ _ _ (Hx p)). rewrite (E_bind_val _ _ _ _ _ (IH p)). reflexivity.
Qed.

Lemma eval_properties_map (look : string -> E value) (ev : expr -> E value)
    (ps : list (string * data)) :
  Forall (fun kv => forall p, ev (json_expr (snd kv)) p = Val (revive (snd kv)) p) ps ->
  forall proto acc p,
    eval_properties look ev (map member_expr ps) proto acc p =
    Val (revive_properties (map member_value ps) proto acc) p.
Proof.
  induction 1 as [| [k x] ps Hx _ IH]; intros proto acc p; [reflexivity |].
  cbn [map member_expr member_value eval_properties revive_properties fst snd] in *.
  rewrite (E_bind_val _ _ _ _ _ (Hx p)).
  destruct (String.eqb k "__proto__"); [destruct (is_object_or_null (revive x)) |]; apply IH.
Qed.

Lemma eval_json c env v :
  defined v = true -> well_formed v = true ->
  forall p, eval c env (json_expr v) p = Val (revive v) p.
Proof.
  induction v as [| | b | z | s | l IH | ps IH] using data_induction;
    intros Hd Hw p; try discriminate Hd.
  - reflexivity.
  - reflexivity.
  - destruct z; reflexivity.
  - reflexivity.
  - cbn [defined] in Hd. cbn [well_formed] in Hw. cbn [json_expr revive eval].
    erewrite E_bind_val; [reflexivity |].
    apply eval_list_map.
    clear - IH Hd Hw. induction IH as [| x l Hx _ IHl]; constructor;
      cbn [forallb] in Hd, Hw; apply andb_prop in Hd as [? ?], Hw as [? ?]; auto.
  - cbn [defined] in Hd. cbn [well_formed] in Hw. apply andb_prop in Hw as [_ Hw].
    cbn [json_expr revive eval].
    apply (eval_properties_map (lookup c env) (eval c env) ps).
    clear - IH Hd Hw. induction IH as [| [k x] l Hx _ IHl]; constructor;
      cbn [forallb snd] in Hd, Hw; apply andb_prop in Hd as [? ?], Hw as [? ?]; auto.
Qed.

(** ** The handler's own text *)

Lemma nest_frame toks stack cur res :
  nest toks stack cur = Some res ->
  forall base r, nest (toks ++ r) (stack ++ base) cur = nest r base res.
Proof.
  revert stack cur. induction toks as [| t toks IH]; intros stack cur H base r.
  - cbn [nest] in H. destruct stack; [| discriminate]. injection H as <-. reflexivity.
  - cbn [nest app] in *. destruct t; try (apply IH; exact H).
    + apply (IH ((d, cur) :: stack)). exact H.
    + destruct stack as [| [d' up] stack]; [discriminate |].
      cbn [app]. destruct (delim_eqb d d'); [| discriminate]. apply IH. exact H.
Qed.

Lemma step_flushed T m b T' m' b' c t :
  flush T m b = Lex T' m' b' -> punctuator c = Some t ->
  step (Lex T m b) c = Lex (T' ++ [t]) MStart false.
Proof.
  intros Hf Hc.
  destruct (start_punctuator T' b' c t Hc) as (E & Hp & Hd & H46 & Hi).
  destruct (punctuator_plain c t Hc) as (H45 & H61 & H62).
  assert (Hm : m' = MStart).
  { destruct m; cbn [flush] in Hf; try discriminate Hf;
      try (unfold emit in Hf; cbn in Hf; injection Hf as _ <- _; reflexivity).
    unfold emit in Hf. destruct (n <=? max_safe_integer)%N; [| discriminate].
    injection Hf as _ <- _. reflexivity. }
  subst m'.
  destruct m; try discriminate Hf; cbn [step];
    rewrite ?Hp, ?Hd, ?Hi, ?H46, ?H45, ?H61, ?H62; cbn [orb];
    try (rewrite Hf; cbn [then_start]; exact E).
  cbn [flush] in Hf. injection Hf as <- <-. exact E.
Qed.

Lemma scan_text_then_punctuator src toks T c t r :
  tokenize src = Read toks -> ends_with_return T = false -> punctuator c = Some t ->
  scan (Lex T MStart false) (src +:+ String c r) =
  scan (Lex (T ++ toks ++ [t]) MStart false) r.
Proof.
  intros Ht HT Hc. unfold tokenize in Ht.
  rewrite scan_app. cbn [scan]. rewrite (scan_after T) by exact HT.
  destruct (scan (Lex [] MStart false) src) as [T0 m b | |] eqn:Es;
    [| discriminate | discriminate].
  cbn [finish] in Ht.
  destruct (flush T0 m b) as [T' m' b' | |] eqn:Efl; [| discriminate | discriminate].
  injection Ht as ->.
  cbn [prepend].
  change (Lex (T ++ T0) m b) with (prepend T (Lex T0 m b)).
  rewrite step_prepend by exact HT.
  rewrite (step_flushed _ _ _ _ _ _ c t Efl Hc). cbn [prepend].
  rewrite app_assoc. reflexivity.
Qed.

(** ** [undefined] in the arguments *)

Lemma forallb_map {A B} (f : B -> bool) (g : A -> B) (l : list A) :
  forallb f (map g l) = forallb (fun x => f (g x)) l.
Proof. induction l as [| x l IH]; [reflexivity |]. cbn [map forallb]. rewrite IH. reflexivity. Qed.

Lemma forallb_Forall {A} (f : A -> bool) (P : A -> Prop) (l : list A) :
  Forall P l -> (forall x, P x -> f x = true) -> forallb f l = true.
Proof. induction 1; intros H'; cbn [forallb]; [reflexivity |]. rewrite H', IHForall; auto. Qed.

Lemma normalize_defined v : defined (normalize v) = true.
Proof.
  induction v as [| | b | z | s | l IH | ps IH] using data_induction; try reflexivity.
  - cbn [normalize defined]. rewrite forallb_map. apply (forallb_Forall _ _ _ IH). auto.
  - cbn [normalize defined].
    induction IH as [| [k x] ps Hx _ IHps]; [reflexivity |].
    cbn [omap list_omap fst snd]. destruct (defined_here x); [| exact IHps].
    cbn [forallb snd]. cbn [snd] in Hx. rewrite Hx. exact IHps.
Qed.

Lemma mentions_kept x (ps : list (string * data)) :
  mentions x (map fst (omap keep_defined ps)) = true -> mentions x (map fst ps) = true.
Proof.
  induction ps as [| [k v] ps IH]; intros H; [exact H |].
  cbn [map fst]. rewrite mentions_cons.
  cbn [omap list_omap] in H. unfold keep_defined at 1 in H. cbn [fst snd] in H.
  destruct (defined_here v).
  - cbn [map fst] in H. rewrite mentions_cons in H.
    apply orb_prop in H as [H | H]; [rewrite H; reflexivity |].
    rewrite (IH H). apply orb_true_r.
  - rewrite (IH H). apply orb_true_r.
Qed.

Lemma distinct_kept (ps : list (string * data)) :
  distinct (map fst ps) = true -> distinct (map fst (omap keep_defined ps)) = true.
Proof.
  induction ps as [| [k v] ps IH]; intros H; [reflexivity |].
  cbn [map fst distinct] in H. apply andb_prop in H as [Hk Hr].
  cbn [omap list_omap]. unfold keep_defined at 1. cbn [fst snd].
  destruct (defined_here v); [| exact (IH Hr)].
  cbn [map fst distinct]. rewrite (IH Hr), andb_true_r.
  apply negb_true_iff. apply negb_true_iff in Hk.
  destruct (mentions k (map fst (omap keep_defined ps))) eqn:E; [| reflexivity].
  apply mentions_kept in E. congruence.
Qed.

Lemma normalize_well_formed v : well_formed v = true -> well_formed (normalize v) = true.
Proof.
  induction v as [| | b | z | s | l IH | ps IH] using data_induction; intros H; try exact H.
  - cbn [normalize well_formed] in *. rewrite forallb_map.
    induction IH as [| x l Hx _ IHl]; [reflexivity |].
    cbn [forallb] in *. apply andb_prop in H as [? ?]. rewrite Hx, IHl; auto.
  - cbn [normalize well_formed] in *. apply andb_prop in H as [Hk H].
    fold keep_defined. change (omap _ ps) with (omap keep_defined ps).
    rewrite (distinct_kept ps Hk). cbn [andb].
    clear Hk. induction IH as [| [k x] ps Hx _ IHps]; [reflexivity |].
    cbn [forallb snd] in H. apply andb_prop in H as [? ?].
    cbn [omap list_omap]. unfold keep_defined at 1. cbn [fst snd] in *.
    destruct (defined_here x); [| apply IHps; assumption].
    cbn [forallb snd]. rewrite Hx, IHps; auto.
Qed.

Lemma normalize_elements l :
  Forall (fun v => serialize (normalize v) = Some (default "null" (serialize v))) l ->
  map (fun x => default "null" (serialize x)) (map normalize l) =
  map (fun x => default "null" (serialize x)) l.
Proof.
  induction 1 as [| x l Hx _ IHl]; [reflexivity |].
  cbn [map]. rewrite IHl, Hx. reflexivity.
Qed.

Lemma normalize_members (ps : list (string * data)) :
  Forall (fun kv => serialize (normalize (snd kv)) = Some (default "null" (serialize (snd kv)))) ps ->
  omap member_string (omap keep_defined ps) = omap member_string ps.
Proof.
  induction 1 as [| [k x] ps Hx _ IHps]; [reflexivity |].
  cbn [omap list_omap]. unfold keep_defined at 1, member_string at 2. cbn [fst snd] in *.
  destruct x; cbn [defined_here];
    try (cbn [fmap option_fmap option_map serialize]; exact IHps);
    (cbn [omap list_omap]; unfold member_string at 1; cbn [fst snd]; rewrite Hx;
     cbn [fmap option_fmap option_map serialize default from_option id];
     f_equal; exact IHps).
Qed.

Lemma normalize_serialize v :
  serialize (normalize v) = Some (default "null" (serialize v)).
Proof.
  induction v as [| | b | z | s | l IH | ps IH] using data_induction; try reflexivity.
  - cbn [normalize serialize]. rewrite (normalize_elements l IH). reflexivity.
  - cbn [normalize serialize].
    change (omap _ (omap _ ps)) with (omap member_string (omap keep_defined ps)).
    rewrite (normalize_members ps IH). reflexivity.
Qed.

Lemma normalize_arguments l :
  JSON_stringify (DArray l) = JSON_stringify (normalize (DArray l)).
Proof. unfold JSON_stringify at 2. rewrite normalize_serialize. reflexivity. Qed.

Lemma normalize_id v : defined v = true -> normalize v = v.
Proof.
  induction v as [| | b | z | s | l IH | ps IH] using data_induction;
    intros H; try reflexivity; try discriminate H.
  - cbn [normalize defined] in *. f_equal.
    induction IH as [| x l Hx _ IHl]; [reflexivity |].
    cbn [forallb map] in *. apply andb_prop in H as [? ?]. rewrite Hx, IHl; auto.
  - cbn [normalize defined] in *. f_equal.
    induction IH as [| [k x] ps Hx _ IHps]; [reflexivity |].
    cbn [forallb snd] in H. apply andb_prop in H as [H1 H2].
    cbn [omap list_omap fst snd] in *.
    replace (defined_here x) with true by (destruct x; [discriminate H1 | reflexivity ..]).
    rewrite Hx, IHps; auto.
Qed.

(** ** What the browser rebuilds *)

Lemma define_fresh k v (acc : list (string * value)) :
  mentions k (map fst acc) = false -> define k v acc = acc ++ [(k, v)].
Proof.
  induction acc as [| [k' v'] acc IH]; intros H; [reflexivity |].
  cbn [map fst] in H. rewrite mentions_cons in H. apply orb_false_elim in H as [Hk Hr].
  cbn [define]. rewrite Hk, IH by exact Hr. reflexivity.
Qed.

Lemma mentions_app x l1 l2 : mentions x (l1 ++ l2) = mentions x l1 || mentions x l2.
Proof. unfold mentions. apply existsb_app. Qed.

Lemma distinct_app_cons l1 x l2 :
  distinct (l1 ++ x :: l2) = true ->
  mentions x l1 = false /\ distinct ((l1 ++ [x]) ++ l2) = true.
Proof.
  induction l1 as [| y l1 IH]; cbn [app distinct]; intros H.
  - split; [reflexivity | exact H].
  - apply andb_prop in H as [Hy H]. destruct (IH H) as [Hx Hd].
    rewrite mentions_app in Hy. apply negb_true_iff, orb_false_elim in Hy as [Hy1 Hy2].
    cbn [mentions existsb] in Hy2. apply orb_false_elim in Hy2 as [Hyx Hy2].
    split.
    + rewrite mentions_cons, Hx, orb_false_r.
      rewrite String.eqb_sym. exact Hyx.
    + rewrite Hd, andb_true_r. apply negb_true_iff.
      rewrite !mentions_app, Hy1. cbn [mentions existsb]. rewrite Hyx. exact Hy2.
Qed.

Lemma revive_properties_plain (ps acc : list (string * value)) proto :
  mentions "__proto__" (map fst ps) = false ->
  distinct (map fst acc ++ map fst ps) = true ->
  revive_properties ps proto acc = VObject proto (acc ++ ps).
Proof.
  revert acc. induction ps as [| [k v] ps IH]; intros acc Hp Hd.
  - cbn [revive_properties]. rewrite app_nil_r. reflexivity.
  - cbn [map fst] in Hp, Hd. rewrite mentions_cons in Hp.
    apply orb_false_elim in Hp as [Hk Hp].
    apply distinct_app_cons in Hd as [Hfresh Hd].
    cbn [revive_properties]. rewrite String.eqb_sym, Hk.
    rewrite define_fresh by exact Hfresh.
    rewrite IH; [rewrite <- app_assoc; reflexivity | exact Hp |].
    rewrite map_app. exact Hd.
Qed.

Lemma revive_inject v :
  well_formed v = true -> proto_free v = true -> revive v = inject v.
Proof.
  induction v as [| | b | z | s | l IH | ps IH] using data_induction;
    intros Hw Hp; try reflexivity.
  - cbn [well_formed proto_free revive inject] in *. f_equal.
    induction IH as [| x l Hx _ IHl]; [reflexivity |].
    cbn [forallb map] in *. apply andb_prop in Hw as [? ?], Hp as [? ?].
    rewrite Hx, IHl; auto.
  - cbn [well_formed proto_free revive inject] in *.
    apply andb_prop in Hw as [Hk Hw], Hp as [Hn Hp]. apply negb_true_iff in Hn.
    change (map (fun kv => (fst kv, revive (snd kv))) ps) with (map member_value ps).
    rewrite revive_properties_plain.
    + cbn [app]. f_equal.
      clear Hk Hn. induction IH as [| [k x] ps Hx _ IHps]; [reflexivity |].
      cbn [forallb snd map] in *. apply andb_prop in Hw as [? ?], Hp as [? ?].
      unfold member_value at 1. cbn [fst snd]. rewrite Hx, IHps; auto.
    + rewrite map_map. exact Hn.
    + cbn [map app]. rewrite map_map. exact Hk.
Qed.

(** ** Deep equality of an image with itself *)

Lemma deep_equal_list_refl (l : list value) :
  Forall (fun v => deep_equal v v = true) l -> deep_equal_list deep_equal l l = true.
Proof.
  induction 1 as [| x l Hx _ IH]; [reflexivity |]. cbn [deep_equal_list]. rewrite Hx, IH.
  reflexivity.
Qed.

Lemma assoc_mentions {A} k (l : list (string * A)) :
  mentions k (map fst l) = false -> assoc k l = None.
Proof.
  induction l as [| [k' v] l IH]; intros H; [reflexivity |].
  cbn [map fst] in H. rewrite mentions_cons in H. apply orb_false_elim in H as [Hk Hr].
  cbn [assoc]. rewrite Hk. apply IH, Hr.
Qed.

Lemma assoc_app {A} k (l1 l2 : list (string * A)) :
  assoc k (l1 ++ l2) = match assoc k l1 with Some a => Some a | None => assoc k l2 end.
Proof.
  induction l1 as [| [k' v] l1 IH]; [reflexivity |].
  cbn [app assoc]. destruct (String.eqb k k'); [reflexivity | exact IH].
Qed.

Lemma assoc_found {A} k (v : A) pre post :
  mentions k (map fst pre) = false -> assoc k (pre ++ (k, v) :: post) = Some v.
Proof.
  intros H. rewrite assoc_app, (assoc_mentions _ _ H). cbn [assoc].
  rewrite String.eqb_refl. reflexivity.
Qed.

Lemma deep_equal_members (ps pre : list (string * value)) :
  distinct (map fst (pre ++ ps)) = true ->
  Forall (fun kv => deep_equal (snd kv) (snd kv) = true) ps ->
  forallb (fun kv => match assoc (fst kv) (pre ++ ps) with
                     | Some v => deep_equal (snd kv) v
                     | None => false
                     end) ps = true /\
  forallb (fun kv => match assoc (fst kv) (pre ++ ps) with
                     | Some _ => true
                     | None => false
                     end) ps = true.
Proof.
  intros Hd H. revert pre Hd. induction H as [| [k v] ps Hv _ IH]; intros pre Hd.
  - split; reflexivity.
  - rewrite map_app in Hd. cbn [map fst] in Hd.
    apply distinct_app_cons in Hd as [Hfresh Hd].
    cbn [forallb fst snd] in *. rewrite (assoc_found k v pre ps Hfresh), Hv. cbn [andb].
    specialize (IH (pre ++ [(k, v)])). rewrite <- app_assoc in IH. cbn [app] in IH.
    apply IH. rewrite map_app. cbn [map fst]. rewrite <- app_assoc in Hd.
    exact Hd.
Qed.

Lemma deep_equal_inject v :
  well_formed v = true -> deep_equal (inject v) (inject v) = true.
Proof.
  induction v as [| | b | z | s | l IH | ps IH] using data_induction; intros Hw;
    try reflexivity.
  - destruct b; reflexivity.
  - cbn [inject deep_equal]. apply Z.eqb_refl.
  - cbn [inject deep_equal]. apply String.eqb_refl.
  - cbn [inject deep_equal well_formed] in *. apply deep_equal_list_refl.
    induction IH as [| x l Hx _ IHl]; [constructor |].
    cbn [forallb map] in *. apply andb_prop in Hw as [? ?]. constructor; auto.
  - cbn [inject deep_equal well_formed] in *. apply andb_prop in Hw as [Hk Hw].
    change (map (fun kv => (fst kv, inject (snd kv))) ps) with (map member_image ps).
    destruct (deep_equal_members (map member_image ps) []) as [H1 H2].
    + cbn [app]. rewrite map_map. exact Hk.
    + clear Hk. induction IH as [| [k x] ps Hx _ IHps]; [constructor |].
      cbn [forallb snd map] in *. apply andb_prop in Hw as [? ?]. constructor; auto.
    + cbn [app] in H1, H2. rewrite H1, H2. reflexivity.
Qed.

Lemma ssrDispatch_parts name h args :
  ssrDispatch name h args =
    text_open +:+ name +:+ String squote (text_handler +:+ fn_source h
      +:+ String ")" (text_args +:+ JSON_stringify (DArray args) +:+ String ";" text_push)).
Proof. reflexivity. Qed.

Lemma scan_fixed T s m b toks :
  ends_with_return T = false ->
  scan (Lex [] m b) s = Lex toks MStart false ->
  forall r, scan (Lex T m b) (s +:+ r) = scan (Lex (T ++ toks) MStart false) r.
Proof.
  intros HT Hs r. rewrite scan_app, (scan_after T) by exact HT. rewrite Hs. reflexivity.
Qed.

Ltac solve_ends_with_return :=
  rewrite ?app_assoc; rewrite ends_with_return_app; reflexivity.

Lemma tokenize_ssrDispatch name h args th :
  safe_name name = true ->
  tokenize (fn_source h) = Read th ->
  forallb well_formed args = true ->
  tokenize (ssrDispatch name h args) = Read (emitted_tokens name th args).
Proof.
  intros Hn Hh Hw. unfold tokenize. rewrite ssrDispatch_parts.
  rewrite scan_app.
  change (scan (Lex [] MStart false) text_open)
    with (Lex tokens_open (MString squote "") false).
  rewrite scan_single_quoted by exact Hn. rewrite app_nil_s.
  rewrite (scan_fixed _ text_handler _ _ tokens_handler);
    [| solve_ends_with_return | reflexivity].
  rewrite (scan_text_then_punctuator _ th _ ")" (TClose Paren));
    [| exact Hh | solve_ends_with_return | reflexivity].
  rewrite (scan_fixed _ text_args _ _ tokens_args);
    [| solve_ends_with_return | reflexivity].
  rewrite normalize_arguments.
  rewrite (scan_json (normalize (DArray args)) (normalize_defined _)
             (normalize_well_formed (DArray args) Hw) _ _ ";"%char TSemi) by reflexivity.
  rewrite (scan_after _ MStart false text_push) by solve_ends_with_return.
  change (scan (Lex [] MStart false) text_push) with (Lex tokens_push MStart false).
  cbn [prepend finish flush]. unfold emitted_tokens.
  repeat (rewrite <- app_assoc || rewrite <- app_comm_cons). reflexivity.
Qed.

Lemma read_function_parts src f :
  read_function src = Read f ->
  exists th seg,
    tokenize src = Read th /\ nest th [] (Level [] []) = Some (Level [] seg)
    /\ primary (Group Paren [] seg) = Read f /\ is_function f = true.
Proof.
  unfold read_function. intros H.
  destruct (tokenize src) as [th | |] eqn:Et; try discriminate H.
  cbn [mbind reading_bind] in H.
  destruct (nest th [] (Level [] [])) as [[its seg] |] eqn:En; try discriminate H.
  destruct its; try discriminate H.
  destruct (primary (Group Paren [] seg)) as [e | |] eqn:Ep; try discriminate H.
  cbn [mbind reading_bind] in H.
  assert (He : e = f /\ is_function e = true).
  { destruct e; try discriminate H; injection H as <-; split; reflexivity. }
  destruct He as [<- He]. exists th, seg. auto.
Qed.

Lemma nest_frame_top toks cur res base r :
  nest toks [] cur = Some res -> nest (toks ++ r) base cur = nest r base res.
Proof. intros H. exact (nest_frame toks [] cur res H base r). Qed.

Lemma nest_emitted name th seg args :
  nest th [] (Level [] []) = Some (Level [] seg) ->
  nest (emitted_tokens name th args) [] (Level [] []) =
  Some (Level [] [Group Brace (emitted_items name seg args) []]).
Proof.
  intros Hh. unfold emitted_tokens, tokens_open, tokens_handler, tokens_args.
  cbn [app nest]. rewrite (nest_frame_top th _ _ _ _ Hh).
  cbn [app nest delim_eqb].
  rewrite (nest_json (normalize (DArray args)) (normalize_defined _)).
  reflexivity.
Qed.

Abbreviation statements' := (statements primary block arguments).

Lemma block_brace its last :
  block (Group Brace its last) =
    (ss ← separated Semi statements' its;
     s ← statements' last;
     guard (distinct (declared_names (concat ss ++ s)));;
     Read (concat ss ++ s)).
Proof. reflexivity. Qed.

Lemma statements_const x d its last :
  plain_name x = true ->
  statements' [Leaf (TIdent "const"); Leaf (TIdent x); Leaf TAssign; Group d its last] =
    (e ← primary (Group d its last); Read [SConst x e]).
Proof.
  intros Hx. cbn [statements].
  change (String.eqb "const" "const") with true. cbn iota. rewrite Hx. cbn [guard].
  change (mbind ?g (Read tt)) with (g tt). cbn beta.
  destruct d; cbn [expression postfix];
    destruct (primary (Group _ its last)); reflexivity.
Qed.

Lemma primary_json_array args :
  forallb well_formed args = true ->
  exists its last,
    json_trees (normalize (DArray args)) = [Group Brack its last] /\
    primary (Group Brack its last) = Read (json_expr (normalize (DArray args))).
Proof.
  intros Hw.
  pose proof (parse_json (normalize (DArray args)) (normalize_defined _)
                (normalize_well_formed (DArray args) Hw)) as H.
  cbn [normalize json_trees] in *.
  eexists _, _. split; [reflexivity |].
  rewrite expression_group in H by discriminate.
  destruct (primary _); [exact H | discriminate H | discriminate H].
Qed.

Lemma parse_ssrDispatch name h args f :
  safe_name name = true ->
  read_function (fn_source h) = Read f ->
  forallb well_formed args = true ->
  parse (ssrDispatch name h args) = Read (emitted_program name f args).
Proof.
  intros Hn Hh Hw.
  destruct (read_function_parts _ _ Hh) as (th & seg & Ht & Hnest & Hp & _).
  destruct (primary_json_array args Hw) as (its & last & Ej & Hj).
  unfold parse. rewrite (tokenize_ssrDispatch name h args th Hn Ht Hw).
  cbn [mbind reading_bind]. rewrite (nest_emitted name th seg args Hnest).
  cbn [items_of segment_of]. unfold function_body.
  rewrite block_brace. cbn [separated].
  change (mbind ?g (Read ?a)) with (g a). cbn beta.
  cbn [statements]. rewrite block_brace.
  unfold emitted_items. rewrite Ej. cbn [app separated sep_eqb guard].
  change (mbind ?g (Read ?a)) with (g a). cbn beta.
  rewrite (statements_const "handler" Paren [] seg) by reflexivity.
  rewrite (statements_const "args" Brack its last) by reflexivity.
  rewrite Hp, Hj.
  reflexivity.
Qed.

Lemma eval_function c env f p :
  is_function f = true -> eval c env f p = Val (VClosure f) p.
Proof. destruct f; intros H; try discriminate H; reflexivity. Qed.

Lemma run_ssrDispatch name h args f c p q :
  safe_name name = true ->
  read_function (fn_source h) = Read f ->
  forallb well_formed args = true ->
  toReplay p = Some q ->
  run (ssrDispatch name h args) c p =
    Completed (Page (Some (q ++ [replay_entry name f args c]))
                    (log p ++ [Push [replay_entry name f args c]])).
Proof.
  intros Hn Hh Hw Hq.
  destruct (read_function_parts _ _ Hh) as (_ & _ & _ & _ & _ & Hf).
  unfold run. rewrite (parse_ssrDispatch name h args f Hn Hh Hw).
  unfold emitted_program. destruct p as [tq lg]. cbn [toReplay log] in *. subst tq.
  cbn [exec_sequence exec declared_names omap list_omap].
  do 2 (unfold mbind, E_bind, mret, E_ret; cbn [eval bind_name fst snd declared bound]).
  rewrite (eval_function _ _ _ _ Hf).
  do 2 (unfold mbind, E_bind, mret, E_ret; cbn [eval bind_name fst snd declared bound]).
  rewrite (eval_json c _ (normalize (DArray args)) (normalize_defined _)
             (normalize_well_formed (DArray args) Hw)).
  do 2 (unfold mbind, E_bind, mret, E_ret; cbn [eval bind_name fst snd declared bound]).
  reflexivity.
Qed.

(** ** The statements about [ssrDispatch] *)

(** X9.  For a name free of quote, backslash and line terminators, a
    handler whose source text [read_function] reads as a function, and
    arguments that are data of the model ([well_formed]), the emitted
    text, run as an inline handler on a page whose replay queue is
    installed, completes having done one thing: one push of the entry
    [{name, handler, args, target, event}].  The handler is turned into a
    function value and not called. *)
Theorem handler_pushes_one_entry name h args f c p q :
  safe_name name = true ->
  read_function (fn_source h) = Read f ->
  forallb well_formed args = true ->
  toReplay p = Some q ->
  run (ssrDispatch name h args) c p =
    Completed (Page (Some (q ++ [replay_entry name f args c]))
                    (log p ++ [Push [replay_entry name f args c]])).
Proof. exact (run_ssrDispatch name h args f c p q). Qed.

Lemma handler_pushes_one_entry_witness :
  run (ssrDispatch "inc" sample_handler sample_args) sample_context used_page =
    Completed
      (Page (Some ([earlier_entry]
                   ++ [replay_entry "inc" sample_function sample_args sample_context]))
            (log used_page
             ++ [Push [replay_entry "inc" sample_function sample_args sample_context]])).
Proof.
  apply (handler_pushes_one_entry "inc" sample_handler sample_args sample_function
           sample_context used_page [earlier_entry]); reflexivity.
Defined.

(** The text of a method defined in shorthand is not an expression:
    the emitted handler does not parse, and nothing is pushed. *)
Lemma method_handler_is_not_pushed :
  run (ssrDispatch "inc" method_handler []) sample_context fresh_page = SyntaxError.
Proof. vm_compute. reflexivity. Qed.




(** C4, which the code does not meet: the name is spliced between single
    quotes as it stands.  A name holding a backslash is read back as
    another string. *)
Theorem escaped_name_is_altered :
  exists entry,
    run (ssrDispatch escaped_name sample_handler []) sample_context fresh_page =
      Completed (Page (Some [entry]) [Push [entry]]) /\
    field "name" entry = Some (VString escaped_name_read) /\
    String.eqb escaped_name_read escaped_name = false.
Proof.
  eexists. split; [vm_compute; reflexivity |].
  split; reflexivity.
Qed.

(** C4, where it holds: a name free of quote, backslash and line
    terminators arrives as it was passed. *)
Lemma safe_name_is_kept name h args f c p q :
  safe_name name = true ->
  read_function (fn_source h) = Read f ->
  forallb well_formed args = true ->
  toReplay p = Some q ->
  exists entry,
    run (ssrDispatch name h args) c p =
      Completed (Page (Some (q ++ [entry])) (log p ++ [Push [entry]])) /\
    field "name" entry = Some (VString name).
Proof.
  intros Hn Hh Hw Hq. exists (replay_entry name f args c).
  split; [exact (run_ssrDispatch name h args f c p q Hn Hh Hw Hq) | reflexivity].
Qed.

(** A name holding a single quote ends the string literal early: the
    emitted handler does not parse. *)
Lemma quote_in_name_is_a_syntax_error :
  run (ssrDispatch "it's" sample_handler []) sample_context fresh_page = SyntaxError.
Proof. vm_compute. reflexivity. Qed.

(** C6, which the code does not meet: a name that closes the string
    literal carries statements of its own into the handler.  Here the
    handler removes the entry an earlier handler pushed before it pushes
    its own. *)
Theorem injected_name_pops_queue :
  exists entry,
    run (ssrDispatch injected_name sample_handler []) sample_context used_page =
      Completed (Page (Some [entry]) (log used_page ++ [Pop; Push [entry]])) /\
    field "name" entry = Some (VString "").
Proof.
  eexists. split; [vm_compute; reflexivity | reflexivity].
Qed.

(** C1, which the code does not meet: a name that closes the string
    literal carries statements of its own into the handler.  Here the
    handler pushes a value that is no Replay Entry before it pushes its
    entry: two pushes, not one. *)
Theorem injected_name_pushes_twice :
  exists entry,
    run (ssrDispatch pushing_name sample_handler []) sample_context used_page =
      Completed (Page (Some [earlier_entry; VNumber 0; entry])
                      (log used_page ++ [Push [VNumber 0]; Push [entry]])) /\
    field "name" entry = Some (VString "").
Proof.
  eexists. split; [vm_compute; reflexivity | reflexivity].
Qed.

(** ** Further properties of [ssrDispatch] *)

Lemma run_parsed text ss c p :
  parse text = Read ss ->
  run text c p =
    match exec_sequence (exec c) [Scope (declared_names ss) []] ss p with
    | Val _ p' => Completed p'
    | Raised e p' => Threw e p'
    | NotModelled => Unsupported
    end.
Proof. intros H. unfold run. rewrite H. reflexivity. Qed.

(** X5.  For a name free of quote, backslash and line terminators, a
    handler whose source text [read_function] reads as a function, and
    arguments that are data of the model ([well_formed]): on a page
    where [window.dispatcher] is not installed, the emitted handler
    throws a [TypeError] and leaves the page as it was: the event is not
    recorded. *)
Theorem handler_throws_without_dispatcher name h args f c p :
  safe_name name = true ->
  read_function (fn_source h) = Read f ->
  forallb well_formed args = true ->
  toReplay p = None ->
  run (ssrDispatch name h args) c p = Threw TypeError p.
Proof.
  intros Hn Hh Hw Hq.
  destruct (read_function_parts _ _ Hh) as (_ & _ & _ & _ & _ & Hf).
  rewrite (run_parsed _ _ c p (parse_ssrDispatch name h args f Hn Hh Hw)).
  unfold emitted_program. destruct p as [tq lg]. cbn [toReplay log] in *. subst tq.
  cbn [exec_sequence exec declared_names omap list_omap].
  do 2 (unfold mbind, E_bind, mret, E_ret; cbn [eval bind_name fst snd declared bound]).
  rewrite (eval_function _ _ _ _ Hf).
  do 2 (unfold mbind, E_bind, mret, E_ret; cbn [eval bind_name fst snd declared bound]).
  rewrite (eval_json c _ (normalize (DArray args)) (normalize_defined _)
             (normalize_well_formed (DArray args) Hw)).
  do 2 (unfold mbind, E_bind, mret, E_ret; cbn [eval bind_name fst snd declared bound]).
  reflexivity.
Qed.

Lemma handler_throws_without_dispatcher_witness :
  run (ssrDispatch "inc" sample_handler sample_args) sample_context bare_page
    = Threw TypeError bare_page.
Proof.
  apply (handler_throws_without_dispatcher "inc" sample_handler sample_args sample_function
           sample_context bare_page); reflexivity.
Defined.

Lemma scan_in_single_quotes T b acc pre rest :
  safe_name pre = true ->
  scan (Lex T (MString squote acc) b) (pre +:+ rest) =
  scan (Lex T (MString squote (acc +:+ pre)) b) rest.
Proof.
  revert acc. induction pre as [| c pre IH]; intros acc H.
  - rewrite app_nil_s, app_empty_r. reflexivity.
  - cbn [safe_name] in H. apply andb_prop in H as [Hc Hp].
    unfold safe_char in Hc. apply andb_prop in Hc as [Hc Hl]. apply andb_prop in Hc as [Hq Hb].
    apply negb_true_iff in Hq, Hb, Hl.
    rewrite app_cons_s. cbn [scan step]. unfold in_string. rewrite Hq, Hb, Hl.
    rewrite IH by exact Hp. rewrite snoc_app. reflexivity.
Qed.

Lemma line_terminator_in_string T b acc c :
  is_line_terminator c = true ->
  step (Lex T (MString squote acc) b) c = LexError.
Proof. each_char c; intros H; try discriminate H; reflexivity. Qed.

(** X6.  A name that holds a line terminator, with no quote and no
    backslash before it, leaves the string literal of the emitted text
    open at the end of its line: whatever the handler, the arguments and
    the page, the text is a syntax error and nothing runs. *)
Theorem line_break_in_name_is_a_syntax_error before c after h args ctx p :
  safe_name before = true ->
  is_line_terminator c = true ->
  run (ssrDispatch (before +:+ String c after) h args) ctx p = SyntaxError.
Proof.
  intros Hb Hc. unfold run, parse, tokenize. rewrite ssrDispatch_parts.
  rewrite scan_app.
  change (scan (Lex [] MStart false) text_open)
    with (Lex tokens_open (MString squote "") false).
  rewrite !app_assoc_string. rewrite scan_in_single_quotes by exact Hb.
  rewrite app_cons_s. cbn [scan]. rewrite line_terminator_in_string by exact Hc.
  rewrite scan_stuck_error. reflexivity.
Qed.

Lemma line_break_in_name_is_a_syntax_error_witness :
  run (ssrDispatch ("two" +:+ String LF "lines") sample_handler sample_args)
      sample_context used_page = SyntaxError.
Proof.
  apply (line_break_in_name_is_a_syntax_error "two" LF "lines"); reflexivity.
Defined.

Lemma lookup_map {A B} (f : A -> B) (l : list A) (i : nat) :
  map f l !! i = f <$> l !! i.
Proof.
  revert i. induction l as [| x l IH]; intros [| i]; try reflexivity. apply IH.
Qed.

(** X7.  For a name free of quote, backslash and line terminators, a
    handler whose source text [read_function] reads as a function,
    arguments that are all data of the model ([well_formed]), and a page
    whose replay queue is installed: the pushed [args] is an array as
    long as the argument list; an argument that is [undefined] arrives
    as [null]; an argument that is JSON-serializable and holds no own
    property [__proto__] arrives deep-equal to what was passed, also
    when other arguments hold [undefined] or a [__proto__] key. *)
Theorem pushed_args_elementwise name h args f c p q :
  safe_name name = true ->
  read_function (fn_source h) = Read f ->
  forallb well_formed args = true ->
  toReplay p = Some q ->
  exists entry vs,
    run (ssrDispatch name h args) c p =
      Completed (Page (Some (q ++ [entry])) (log p ++ [Push [entry]])) /\
    field "args" entry = Some (VArray vs) /\
    List.length vs = List.length args /\
    (forall i, args !! i = Some DUndefined -> vs !! i = Some VNull) /\
    (forall i x, args !! i = Some x ->
       json_serializable x = true -> proto_free x = true ->
       exists v, vs !! i = Some v /\ deep_equal v (inject x) = true).
Proof.
  intros Hn Hh Hw Hq.
  exists (replay_entry name f args c), (map revive (map normalize args)).
  split; [exact (run_ssrDispatch name h args f c p q Hn Hh Hw Hq) |].
  split; [reflexivity |].
  split; [rewrite !length_map; reflexivity |].
  split.
  - intros i Hi. rewrite !lookup_map, Hi. reflexivity.
  - intros i x Hi Hs Hp. unfold json_serializable in Hs. apply andb_prop in Hs as [Hd Hx].
    exists (inject x). rewrite !lookup_map, Hi. cbn [fmap option_fmap option_map].
    rewrite (normalize_id x Hd), (revive_inject x Hx Hp).
    split; [reflexivity | apply deep_equal_inject, Hx].
Qed.

Lemma pushed_args_elementwise_witness :
  exists entry vs,
    run (ssrDispatch "inc" sample_handler mixed_args) sample_context used_page =
      Completed (Page (Some ([earlier_entry] ++ [entry])) (log used_page ++ [Push [entry]])) /\
    field "args" entry = Some (VArray vs) /\
    List.length vs = List.length mixed_args /\
    (forall i, mixed_args !! i = Some DUndefined -> vs !! i = Some VNull) /\
    (forall i x, mixed_args !! i = Some x ->
       json_serializable x = true -> proto_free x = true ->
       exists v, vs !! i = Some v /\ deep_equal v (inject x) = true).
Proof.
  apply (pushed_args_elementwise "inc" sample_handler mixed_args sample_function
           sample_context used_page [earlier_entry]); reflexivity.
Defined.

(** X8.  Handlers that fire one after another, each emitted for a
    name free of quote, backslash and line terminators, a handler whose
    source text [read_function] reads as a function, and arguments that
    are data of the model ([well_fired]), on a page whose replay queue
    is installed, leave their entries in the queue in the order they
    fired, behind what the queue held, one push each. *)
Theorem entries_queue_in_firing_order fs p q :
  forallb well_fired fs = true ->
  toReplay p = Some q ->
  exists es,
    Forall2 (fun f e => fired_entry f = Some e) fs es /\
    fire fs p = Some (Page (Some (q ++ es)) (log p ++ map (fun e => Push [e]) es)).
Proof.
  revert p q. induction fs as [| f fs IH]; intros p q Hfs Hq.
  - exists []. split; [constructor |]. cbn [fire map]. rewrite !app_nil_r.
    destruct p as [tq lg]. cbn [toReplay log] in *. subst tq. reflexivity.
  - cbn [forallb] in Hfs. apply andb_prop in Hfs as [Hf Hfs].
    unfold well_fired in Hf. apply andb_prop in Hf as [Hf Hw]. apply andb_prop in Hf as [Hn He].
    unfold fired_entry in He.
    destruct (read_function (fn_source (fired_handler f))) as [e | |] eqn:Hr;
      try discriminate He.
    pose (entry := replay_entry (fired_name f) e (fired_args f) (fired_context f)).
    destruct (IH (Page (Some (q ++ [entry])) (log p ++ [Push [entry]])) (q ++ [entry]) Hfs eq_refl)
      as (es & Hes & Hfire).
    exists (entry :: es). split.
    + constructor; [| exact Hes]. unfold fired_entry. rewrite Hr. reflexivity.
    + cbn [fire].
      rewrite (run_ssrDispatch _ _ _ e (fired_context f) p q Hn Hr Hw Hq).
      cbn [page_after mbind option_bind]. fold entry. rewrite Hfire. cbn [log map].
      rewrite <- !app_assoc. reflexivity.
Qed.

Lemma entries_queue_in_firing_order_witness :
  exists es,
    Forall2 (fun f e => fired_entry f = Some e) sample_firings es /\
    fire sample_firings used_page =
      Some (Page (Some ([earlier_entry] ++ es))
                 (log used_page ++ map (fun e => Push [e]) es)).
Proof.
  apply (entries_queue_in_firing_order sample_firings used_page [earlier_entry]); reflexivity.
Defined.

End DispatchFacts.

(** * Part VII: the call of [ssrDispatch], proved *)

Module ServerFacts.
Import Server ServerSpec.



(** ** Allocation leaves lookups as they were *)





(** ** Reading plain data runs no code *)

Section WithHost.

Variable host_call : host.








(** ** The conversion of the handler *)



(** ** The call on plain inputs *)

Lemma template_is_the_text name src scope ds :
  template name src (Dispatch.JSON_stringify (Dispatch.DArray ds)) =
    Dispatch.ssrDispatch name (Dispatch.JsFun src scope) ds.
Proof. reflexivity. Qed.



End WithHost.



End ServerFacts.
